(** * alchemlyb: the BAR estimator ([alchemlyb/estimators/bar_.py])

    A shallow embedding of [BAR.__init__] and [BAR.fit], and the properties
    of the matrices [delta_f_] and [d_delta_f_] that [fit] assembles from the
    pairwise estimates of [pymbar.BAR].

    Numbers.  numpy's float64 values are modelled by the real numbers they
    stand for ([R]): sums are exact, [sqrt] is the real square root, and
    there is neither rounding nor NaN/inf.  Index keys (the time stamp and
    the lambda state of a sample, the column labels) are modelled by [Z]. *)

From Stdlib Require Import String.
From Stdlib Require Import Reals Lra Lia ZArith Bool Arith List.
From Stdlib Require Import Permutation Sorted.
Import ListNotations.

Open Scope R_scope.

(** ** The numpy operations used by [fit] *)

Module Np.

Definition array := list R.
Definition matrix := list (list R).

(** [np.zeros((n, m))] *)
Definition zeros (n m : nat) : matrix := repeat (repeat 0 m) n.

(** [np.zeros_like(A)] *)
Definition zeros_like (A : matrix) : matrix := map (map (fun _ => 0)) A.

(** [np.append(v, x)] for a scalar [x] *)
Definition append (v : array) (x : R) : array := v ++ [x].

(** [v[a:b]]: slicing clips at the end of the array. *)
Definition slice (a b : nat) (v : array) : array := firstn (b - a) (skipn a v).

(** [v.sum()]; the sum of an empty array is [0]. *)
Definition sum (v : array) : R := fold_left Rplus v 0.

(** [np.diagflat(v, k=k)] for [k >= 0]: a square matrix of size
    [len(v) + k] with [v] on the [k]-th superdiagonal. *)
Definition diagflat (v : array) (k : nat) : matrix :=
  let n := (length v + k)%nat in
  map (fun r => map (fun c => if (c =? r + k)%nat then nth r v 0 else 0)
                    (seq 0 n))
      (seq 0 n).

Fixpoint zip_with {A B C} (f : A -> B -> C) (l : list A) (l' : list B) : list C :=
  match l, l' with
  | x :: t, y :: t' => f x y :: zip_with f t t'
  | _, _ => []
  end.

(** [A + B], [A - B] on matrices of one shape (element by element). *)
Definition add (A B : matrix) : matrix := zip_with (zip_with Rplus) A B.
Definition sub (A B : matrix) : matrix := zip_with (zip_with Rminus) A B.

(** [A[i, j]] *)
Definition get (A : matrix) (i j : nat) : R := nth j (nth i A []) 0.

Definition ncols (A : matrix) : nat := length (hd [] A).

(** [A.T] *)
Definition transpose (A : matrix) : matrix :=
  map (fun c => map (fun row => nth c row 0) A) (seq 0 (ncols A)).

(** [np.sqrt(A)] *)
Definition sqrt (A : matrix) : matrix := map (map R_sqrt.sqrt) A.

(** [A] has [n] rows of [m] entries each. *)
Definition shape (A : matrix) (n m : nat) : Prop :=
  length A = n /\ Forall (fun row => length row = m) A.

End Np.

(** ** The chain aggregation of [fit] (lines 109-121)

    [chain v j] is the list [out] (resp. [dout]) that the inner loop builds
    for the outer index [j]: entry [i] is [v[i] + v[i+1:i+j+1].sum()].  The
    range of the inner loop is [len(deltas) - j] for both lists. *)

Definition chain (n : nat) (v : Np.array) (j : nat) : Np.array :=
  map (fun i => nth i v 0 + Np.sum (Np.slice (i + 1) (i + j + 1) v))
      (seq 0 (n - j)).

Definition assemble_step (deltas d_deltas : Np.array)
    (acc : Np.matrix * Np.matrix) (j : nat) : Np.matrix * Np.matrix :=
  let '(adelta, ad_delta) := acc in
  let out := chain (length deltas) deltas j in
  let dout := chain (length deltas) d_deltas j in
  (Np.add adelta (Np.diagflat out (j + 1)),
   Np.add ad_delta (Np.diagflat dout (j + 1))).

Definition assemble (deltas d_deltas : Np.array) : Np.matrix * Np.matrix :=
  let adelta := Np.zeros (length deltas + 1) (length deltas + 1) in
  let ad_delta := Np.zeros_like adelta in
  fold_left (assemble_step deltas d_deltas) (seq 0 (length deltas))
            (adelta, ad_delta).

(** ** pandas: the Energy Table [u_nk] and the output frames *)

(** A lambda state (the index levels after the first, and the column
    labels). *)
Definition label := Z.

(** One row of [u_nk]: its index entry [(time, origin state)] and the
    reduced potential of the sample at every column. *)
Record sample := mk_sample
  { time : Z;
    origin : label;
    potentials : list R }.

Arguments mk_sample (time origin)%_Z potentials%_R.

Record EnergyTable := mk_table
  { columns : list label;
    rows : list sample }.


(** The frames [pd.DataFrame(values, columns=..., index=...)] of the output. *)
Record DataFrame := mk_frame
  { values : Np.matrix;
    df_columns : list label;
    df_index : list label }.

Inductive exn :=
| KeyError (key : label)
| ValueError (msg : string)
| AttributeError (name : string)
| Exception (cls : string).

(** [pd.DataFrame(data, columns=..., index=...)] raises [ValueError] when
    the shape of [data] is not [(len(index), len(columns))]. *)
Definition new_DataFrame (data : Np.matrix) (cols idx : list label)
  : exn + DataFrame :=
  if ((length data =? length idx)%nat
      && forallb (fun row => (length row =? length cols)%nat) data)%bool
  then inr (mk_frame data cols idx)
  else inl (ValueError "Shape of passed values does not match the indices").

(** [D.iloc[i, j]] of an output frame. *)
Definition iat (D : DataFrame) (i j : nat) : R := Np.get (values D) i j.

(** [u_nk.sort_index(level=u_nk.index.names[1:])]: a stable sort of the rows
    by the origin state and then ([sort_remaining] is on by default) by the
    remaining level, the time. *)
Definition key_leb (a b : sample) : bool :=
  ((origin a <? origin b)%Z
   || ((origin a =? origin b)%Z && (time a <=? time b)%Z))%bool.

Fixpoint insert_row (x : sample) (l : list sample) : list sample :=
  match l with
  | [] => [x]
  | y :: t => if key_leb x y then x :: l else y :: insert_row x t
  end.

Definition sort_rows (l : list sample) : list sample :=
  fold_right insert_row [] l.

Definition sort_index (u : EnergyTable) : EnergyTable :=
  mk_table (columns u) (sort_rows (rows u)).

(** [u_nk.groupby(level=u_nk.index.names[1:])]: one group per origin state
    that occurs in the index, holding the rows of that state in the order of
    the frame. *)
Definition GroupBy := list (label * list sample).

Definition groupby (u : EnergyTable) : GroupBy :=
  map (fun l => (l, filter (fun r => (origin r =? l)%Z) (rows u)))
      (nodup Z.eq_dec (map origin (rows u))).

Fixpoint lookup (l : label) (g : GroupBy) : option (list sample) :=
  match g with
  | [] => None
  | (l', rs) :: t => if (l =? l')%Z then Some rs else lookup l t
  end.

(** [i in groups.groups] *)
Definition in_groups (l : label) (g : GroupBy) : bool :=
  match lookup l g with Some _ => true | None => false end.

(** [groups.get_group(i)] raises [KeyError] for a state without rows. *)
Definition get_group (l : label) (g : GroupBy) : exn + list sample :=
  match lookup l g with
  | Some rs => inr rs
  | None => inl (KeyError l)
  end.

(** [uk.iloc[:, k]] and the difference of two columns of one frame. *)
Definition iloc_col (uk : list sample) (k : nat) : Np.array :=
  map (fun r => nth k (potentials r) 0) uk.

Definition series_sub (a b : Np.array) : Np.array := Np.zip_with Rminus a b.

(** ** The estimator object and the solver *)

(** The attributes of a [BAR] instance.  [__init__] stores [method] as
    [(dict(method=method), )]; the string is kept here.  The attributes that
    end in an underscore exist only once [fit] has assigned them. *)
Record BAR := mk_BAR
  { maximum_iterations : Z;
    relative_tolerance : R;
    initial_f_k : option (list R);
    method : string;
    verbose : bool;
    states_ : option (list label);
    delta_f_ : option DataFrame;
    d_delta_f_ : option DataFrame }.

(** [BAR.__init__] with its default arguments made explicit by the caller. *)
Definition __init__ (maximum_iterations : Z) (relative_tolerance : R)
    (initial_f_k : option (list R)) (method : string) (verbose : bool) : BAR :=
  mk_BAR maximum_iterations relative_tolerance initial_f_k method verbose
         None None None.

Arguments __init__ maximum_iterations%_Z relative_tolerance%_R
  initial_f_k method%_string verbose%_bool.

(** The arguments of one call [BAR_(w_F, w_R, maximum_iterations=...,
    relative_tolerance=..., verbose=...)] as [fit] writes it. *)
Record BAR_args := mk_args
  { w_F : Np.array;
    w_R : Np.array;
    kw_maximum_iterations : Z;
    kw_relative_tolerance : R;
    kw_verbose : bool }.

(** The state that [fit] acts on: the estimator and the calls made to the
    solver so far (oldest first). *)
Record world := mk_world
  { self : BAR;
    solver_calls : list BAR_args }.

(** Computations that read and write the world and may raise. *)
Definition M (A : Type) : Type := world -> (exn + A) * world.

Definition ret {A} (x : A) : M A := fun w => (inr x, w).

Definition raise {A} (e : exn) : M A := fun w => (inl e, w).

Definition bind {A B} (m : M A) (f : A -> M B) : M B :=
  fun w =>
    match m w with
    | (inr x, w') => f x w'
    | (inl e, w') => (inl e, w')
    end.

Definition lift {A} (r : exn + A) : M A :=
  match r with inr x => ret x | inl e => raise e end.

Declare Scope py_scope.
Delimit Scope py_scope with py.
Notation "x <- m ;; k" := (bind m (fun x => k))
  (at level 61, m at next level, right associativity) : py_scope.
Notation "' p <- m ;; k" := (bind m (fun x => match x with p => k end))
  (at level 61, p pattern, m at next level, right associativity) : py_scope.
Notation "m ;; k" := (bind m (fun _ => k))
  (at level 61, right associativity) : py_scope.
Open Scope py_scope.

Definition get_self : M BAR := fun w => (inr (self w), w).

Definition set_self (f : BAR -> BAR) : M unit :=
  fun w => (inr tt, mk_world (f (self w)) (solver_calls w)).

(** Reading [self.states_]. *)
Definition get_states_ : M (list label) :=
  s <- get_self ;;
  match states_ s with
  | Some l => ret l
  | None => raise (AttributeError "states_")
  end.

(** Attribute assignment: [self.states_ = l] and the like. *)
Definition with_states_ (l : list label) (s : BAR) : BAR :=
  mk_BAR (maximum_iterations s) (relative_tolerance s) (initial_f_k s)
         (method s) (verbose s) (Some l) (delta_f_ s) (d_delta_f_ s).

Definition with_delta_f_ (D : DataFrame) (s : BAR) : BAR :=
  mk_BAR (maximum_iterations s) (relative_tolerance s) (initial_f_k s)
         (method s) (verbose s) (states_ s) (Some D) (d_delta_f_ s).

Definition with_d_delta_f_ (D : DataFrame) (s : BAR) : BAR :=
  mk_BAR (maximum_iterations s) (relative_tolerance s) (initial_f_k s)
         (method s) (verbose s) (states_ s) (delta_f_ s) (Some D).

Definition set_states_ (l : list label) : M unit := set_self (with_states_ l).
Definition set_delta_f_ (D : DataFrame) : M unit := set_self (with_delta_f_ D).
Definition set_d_delta_f_ (D : DataFrame) : M unit := set_self (with_d_delta_f_ D).

(** A Python [for] loop over a list that threads an accumulator. *)
Fixpoint for_each {A B} (body : B -> A -> M B) (l : list A) (acc : B) : M B :=
  match l with
  | [] => ret acc
  | x :: t => acc' <- body acc x ;; for_each body t acc'
  end.

Section Fit.

(** [pymbar.BAR], outside the repository: it returns [(df, ddf)] or
    raises. *)
Variable BAR_ : BAR_args -> exn + (R * R).

(** One solver call, recorded in the world. *)
Definition call_BAR_ (a : BAR_args) : M (R * R) :=
  fun w => (BAR_ a, mk_world (self w) (solver_calls w ++ [a])).

(** The body of the loop of lines 89-107 for the chain position [k]. *)
Definition pair_step (groups : GroupBy) (acc : Np.array * Np.array) (k : nat)
  : M (Np.array * Np.array) :=
  let '(deltas, d_deltas) := acc in
  states <- get_states_ ;;
  uk <- lift (get_group (nth k states 0%Z) groups) ;;
  let w_F := series_sub (iloc_col uk (k + 1)) (iloc_col uk k) in
  states <- get_states_ ;;
  uk1 <- lift (get_group (nth (k + 1) states 0%Z) groups) ;;
  let w_R := series_sub (iloc_col uk1 k) (iloc_col uk1 (k + 1)) in
  s <- get_self ;;
  '(df, ddf) <- call_BAR_ (mk_args w_F w_R (maximum_iterations s)
                                   (relative_tolerance s) (verbose s)) ;;
  ret (Np.append deltas df, Np.append d_deltas (ddf ^ 2)).

(** [BAR.fit(self, u_nk)]; the returned [self] is the estimator of the
    final world. *)
Definition fit (u_nk : EnergyTable) : M unit :=
  let u_nk := sort_index u_nk in
  set_states_ (columns u_nk) ;;
  let groups := groupby u_nk in
  let N_k := map (fun i => if in_groups i groups
                           then match get_group i groups with
                                | inr g => length g
                                | inl _ => 0%nat
                                end
                           else 0%nat) (columns u_nk) in
  '(deltas, d_deltas) <-
      for_each (pair_step groups) (seq 0 (length N_k - 1)) ([], []) ;;
  let '(adelta, ad_delta) := assemble deltas d_deltas in
  states <- get_states_ ;;
  D <- lift (new_DataFrame (Np.sub adelta (Np.transpose adelta))
                           states states) ;;
  set_delta_f_ D ;;
  states <- get_states_ ;;
  dD <- lift (new_DataFrame (Np.sqrt (Np.add ad_delta (Np.transpose ad_delta)))
                            states states) ;;
  set_d_delta_f_ dD ;;
  ret tt.

End Fit.

(** ** Specification vocabulary *)

(** The sum of [f k] for [k] in [i .. j-1]. *)
Definition sum_range (f : nat -> R) (i j : nat) : R :=
  Np.sum (map f (seq i (j - i))).

(** The path sum [v[i] + v[i+1:j].sum()] that the inner loop stores for the
    entry [(i, j)]. *)
Definition path (v : Np.array) (i j : nat) : R :=
  nth i v 0 + Np.sum (Np.slice (i + 1) j v).

Definition is_origin (l : label) (r : sample) : bool := (origin r =? l)%Z.

(** Forward and reverse work of one sample at the chain position [k]. *)
Definition forward_work (k : nat) (r : sample) : R :=
  nth (k + 1) (potentials r) 0 - nth k (potentials r) 0.

Definition reverse_work (k : nat) (r : sample) : R :=
  nth k (potentials r) 0 - nth (k + 1) (potentials r) 0.

(** The stateless content of the loop body (lines 91-104) at the chain
    position [k]: the two group lookups and the arguments of the solver
    call.  [pair_step_run] below shows that [pair_step] does exactly this. *)
Definition pair_args (u_nk : EnergyTable) (s : BAR) (k : nat) : exn + BAR_args :=
  let groups := groupby (sort_index u_nk) in
  match get_group (nth k (columns u_nk) 0%Z) groups with
  | inl e => inl e
  | inr uk =>
      match get_group (nth (k + 1) (columns u_nk) 0%Z) groups with
      | inl e => inl e
      | inr uk1 =>
          inr (mk_args (series_sub (iloc_col uk (k + 1)) (iloc_col uk k))
                       (series_sub (iloc_col uk1 k) (iloc_col uk1 (k + 1)))
                       (maximum_iterations s) (relative_tolerance s) (verbose s))
      end
  end.

(** What the iteration [k] obtains: [(df, ddf)] from the solver, or the
    exception of a lookup or of the solver. *)
Definition pair_result (BAR_ : BAR_args -> exn + (R * R))
    (u_nk : EnergyTable) (s : BAR) (k : nat) : exn + (R * R) :=
  match pair_args u_nk s k with
  | inl e => inl e
  | inr a => BAR_ a
  end.

(** The calls that a run of [fit] adds to the record of solver calls. *)
Definition new_calls (w w' : world) : list BAR_args :=
  skipn (length (solver_calls w)) (solver_calls w').

(** The world after one more solver call. *)
Definition record_call (a : BAR_args) (w : world) : world :=
  mk_world (self w) (solver_calls w ++ [a]).


(** The estimator with another [method] and [initial_f_k]. *)
Definition reconfigure (g : option (list R)) (m : string) (s : BAR) : BAR :=
  mk_BAR (maximum_iterations s) (relative_tolerance s) g m (verbose s)
         (states_ s) (delta_f_ s) (d_delta_f_ s).

Definition reconfigure_world (g : option (list R)) (m : string) (w : world) : world :=
  mk_world (reconfigure g m (self w)) (solver_calls w).

(** The state of [adelta] (resp. [ad_delta]) after the outer loop of lines
    113-121 has run for [j = 0 .. m-1]: the first [m] superdiagonals hold
    the path sums, everything else is still [0]. *)
Definition upper (n : nat) (v : Np.array) (m : nat) (A : Np.matrix) : Prop :=
  Np.shape A (n + 1) (n + 1) /\
  forall i j,
    Np.get A i j =
    if ((i <? j)%nat && (j <=? i + m)%nat && (j <=? n)%nat)%bool
    then path v i j else 0.

(** ** Example inputs *)

(** A solver that always returns; its estimate is the difference of the
    summed work values and its standard error is [1]. *)
Definition solver_sum (a : BAR_args) : exn + (R * R) :=
  inr (Np.sum (w_F a) - Np.sum (w_R a), 1).

(** [BAR()] with the default arguments, before any call of [fit]. *)
Definition fresh_world : world :=
  mk_world (__init__ 10000 (1 / 10000000) None "hybr" false) [].

(** Three states with samples for each of them (unsorted on purpose). *)
Definition u_three : EnergyTable :=
  mk_table [0; 1; 2]%Z
    [ mk_sample 0 1 [1; 2; 3];
      mk_sample 1 0 [0; 1; 5];
      mk_sample 0 2 [7; 8; 9];
      mk_sample 0 0 [4; 5; 6] ].


(** Three columns, no sample from the last state. *)
Definition u_gap : EnergyTable :=
  mk_table [0; 1; 2]%Z
    [ mk_sample 0 0 [4; 5; 6];
      mk_sample 0 1 [1; 2; 3] ].


(** ** The rest of the class and further vocabulary *)

(** [BAR.predict(self, u_ln)]: its body is [pass]; it returns [None] and
    touches nothing. *)
Definition predict (u_ln : EnergyTable) : M unit := ret tt.

(** Two estimators agree on the options that [fit] hands to the solver. *)
Definition same_options (s s' : BAR) : Prop :=
  maximum_iterations s = maximum_iterations s' /\
  relative_tolerance s = relative_tolerance s' /\
  verbose s = verbose s'.

(** The index entry of a row, in the order [sort_index] compares by. *)
Definition index_key (r : sample) : Z * Z := (origin r, time r).

(** The table without the rows whose origin state is not a column label. *)
Definition known_origin (u : EnergyTable) (r : sample) : bool :=
  existsb (fun l => (origin r =? l)%Z) (columns u).

Definition known_rows (u : EnergyTable) : EnergyTable :=
  mk_table (columns u) (filter (known_origin u) (rows u)).




(** A table without columns. *)
Definition u_no_columns : EnergyTable :=
  mk_table [] [ mk_sample 0 0 [] ].

(** The rows of [u_three] in another order. *)
Definition u_three_reordered : EnergyTable :=
  mk_table [0; 1; 2]%Z
    [ mk_sample 0 0 [4; 5; 6];
      mk_sample 0 2 [7; 8; 9];
      mk_sample 0 1 [1; 2; 3];
      mk_sample 1 0 [0; 1; 5] ].

(** * Properties *)

(** ** Arrays and matrices *)

Section NpFacts.

Import Np.

Lemma nth_zip_with (f : R -> R -> R) (a b : list R) (j : nat) :
  length a = length b -> f 0 0 = 0 ->
  nth j (zip_with f a b) 0 = f (nth j a 0) (nth j b 0).
Proof.
  intros Hlen Hf. revert b j Hlen.
  induction a as [|x a IH]; intros [|y b] j Hlen; simpl in *; try discriminate.
  - now destruct j.
  - destruct j as [|j]; [reflexivity|]. apply IH. now injection Hlen.
Qed.

Lemma length_zip_with {A B C} (f : A -> B -> C) (a : list A) (b : list B) :
  length a = length b -> length (zip_with f a b) = length a.
Proof.
  revert b. induction a as [|x a IH]; intros [|y b] H; simpl in *;
    try discriminate; [reflexivity|]. f_equal. apply IH. now injection H.
Qed.

Lemma nth_zip_rows (f : R -> R -> R) (A B : matrix) (i : nat) :
  length A = length B ->
  nth i (zip_with (zip_with f) A B) [] = zip_with f (nth i A []) (nth i B []).
Proof.
  revert B i. induction A as [|x A IH]; intros [|y B] i H; simpl in *;
    try discriminate.
  - now destruct i.
  - destruct i as [|i]; [reflexivity|]. apply IH. now injection H.
Qed.

Lemma shape_nth (A : matrix) (n m i : nat) :
  shape A n m -> (i < n)%nat -> length (nth i A []) = m.
Proof.
  intros [Hn Hall] Hi. rewrite Forall_forall in Hall.
  apply Hall, nth_In. lia.
Qed.

Lemma rows_same_length (A B : matrix) (n m i : nat) :
  shape A n m -> shape B n m -> length (nth i A []) = length (nth i B []).
Proof.
  intros HA HB. destruct (Nat.lt_ge_cases i n) as [Hi|Hi].
  - now rewrite (shape_nth A n m), (shape_nth B n m).
  - destruct HA as [HA _], HB as [HB _].
    rewrite !nth_overflow by lia. reflexivity.
Qed.

Lemma get_zip (f : R -> R -> R) (A B : matrix) (n m i j : nat) :
  f 0 0 = 0 -> shape A n m -> shape B n m ->
  get (zip_with (zip_with f) A B) i j = f (get A i j) (get B i j).
Proof.
  intros Hf HA HB. unfold get.
  rewrite nth_zip_rows by (destruct HA, HB; congruence).
  apply nth_zip_with; [|exact Hf].
  eapply rows_same_length; eassumption.
Qed.

Lemma shape_zip (f : R -> R -> R) (A B : matrix) (n m : nat) :
  shape A n m -> shape B n m -> shape (zip_with (zip_with f) A B) n m.
Proof.
  intros [HAn HA] [HBn HB]. subst n. revert B HBn HB.
  induction A as [|x A IH]; intros [|y B] HBn HB; simpl in *; try discriminate.
  - split; [reflexivity|constructor].
  - inversion HA; subst. inversion HB; subst.
    destruct (IH H2 B) as [Hl Hf]; [now injection HBn|assumption|].
    split; [simpl; now rewrite Hl|].
    constructor; [|exact Hf].
    rewrite length_zip_with; congruence.
Qed.

Lemma get_add (A B : matrix) (n m i j : nat) :
  shape A n m -> shape B n m -> get (add A B) i j = get A i j + get B i j.
Proof. apply get_zip. lra. Qed.

Lemma get_sub (A B : matrix) (n m i j : nat) :
  shape A n m -> shape B n m -> get (sub A B) i j = get A i j - get B i j.
Proof. apply get_zip. lra. Qed.

Lemma shape_add (A B : matrix) (n m : nat) :
  shape A n m -> shape B n m -> shape (add A B) n m.
Proof. apply shape_zip. Qed.

Lemma shape_sub (A B : matrix) (n m : nat) :
  shape A n m -> shape B n m -> shape (sub A B) n m.
Proof. apply shape_zip. Qed.

Lemma nth_map_seq (f : nat -> R) (k i : nat) :
  nth i (map f (seq 0 k)) 0 = if (i <? k)%nat then f i else 0.
Proof.
  destruct (Nat.ltb_spec i k) as [Hi|Hi].
  - rewrite (nth_indep _ 0 (f 0%nat)) by (rewrite length_map, length_seq; lia).
    rewrite map_nth, seq_nth by lia. reflexivity.
  - apply nth_overflow. rewrite length_map, length_seq. lia.
Qed.

Lemma nth_map_seq_rows (f : nat -> list R) (k i : nat) :
  nth i (map f (seq 0 k)) [] = if (i <? k)%nat then f i else [].
Proof.
  destruct (Nat.ltb_spec i k) as [Hi|Hi].
  - rewrite (nth_indep _ [] (f 0%nat)) by (rewrite length_map, length_seq; lia).
    rewrite map_nth, seq_nth by lia. reflexivity.
  - apply nth_overflow. rewrite length_map, length_seq. lia.
Qed.

Lemma shape_map_seq (f : nat -> nat -> R) (n m : nat) :
  shape (map (fun r => map (f r) (seq 0 m)) (seq 0 n)) n m.
Proof.
  split; [now rewrite length_map, length_seq|].
  apply Forall_forall. intros row Hin. apply in_map_iff in Hin.
  destruct Hin as [r [<- _]]. now rewrite length_map, length_seq.
Qed.

Lemma get_diagflat (v : array) (k i j : nat) :
  get (diagflat v k) i j = if (j =? i + k)%nat then nth i v 0 else 0.
Proof.
  unfold get, diagflat. rewrite nth_map_seq_rows.
  destruct (Nat.ltb_spec i (length v + k)) as [Hi|Hi].
  - rewrite nth_map_seq.
    destruct (Nat.ltb_spec j (length v + k)) as [Hj|Hj]; [reflexivity|].
    destruct (Nat.eqb_spec j (i + k)) as [E|E]; [|reflexivity].
    symmetry. apply nth_overflow. lia.
  - destruct (Nat.eqb_spec j (i + k)) as [E|E]; [|now destruct j].
    rewrite (nth_overflow v) by lia. now destruct j.
Qed.

Lemma shape_diagflat (v : array) (k : nat) :
  shape (diagflat v k) (length v + k) (length v + k).
Proof. apply (shape_map_seq (fun r c => if (c =? r + k)%nat then nth r v 0 else 0)). Qed.

Lemma shape_zeros (n m : nat) : shape (zeros n m) n m.
Proof.
  split; [apply repeat_length|].
  apply Forall_forall. intros row Hin.
  apply repeat_spec in Hin. subst. apply repeat_length.
Qed.

Lemma nth_repeat_0 (m j : nat) : nth j (repeat 0 m) 0 = 0.
Proof.
  revert j. induction m as [|m IH]; intros [|j]; simpl; auto.
Qed.

Lemma get_zeros (n m i j : nat) : get (zeros n m) i j = 0.
Proof.
  unfold get, zeros. revert i.
  induction n as [|n IH]; intros [|i]; simpl; auto using nth_repeat_0;
    now destruct j.
Qed.

Lemma shape_zeros_like (A : matrix) (n m : nat) :
  shape A n m -> shape (zeros_like A) n m.
Proof.
  intros [Hn HA]. split; [unfold zeros_like; now rewrite length_map|].
  unfold zeros_like. apply Forall_forall. intros row Hin.
  apply in_map_iff in Hin. destruct Hin as [r [<- Hr]].
  rewrite length_map. rewrite Forall_forall in HA. now apply HA.
Qed.

Lemma get_zeros_like (A : matrix) (i j : nat) : get (zeros_like A) i j = 0.
Proof.
  unfold get, zeros_like.
  change (@nil R) with (map (fun _ : R => 0) []).
  rewrite map_nth.
  set (row := nth i A []). clearbody row. revert j.
  induction row as [|x row IH]; intros [|j]; simpl; auto.
Qed.

Lemma ncols_shape (A : matrix) (n m : nat) :
  shape A n m -> (0 < n)%nat -> ncols A = m.
Proof.
  intros [Hn HA] Hpos. destruct A as [|row A]; simpl in *; [lia|].
  now inversion HA.
Qed.

Lemma get_transpose (A : matrix) (n m i j : nat) :
  shape A n m -> get (transpose A) i j = get A j i.
Proof.
  intros HA. unfold get, transpose. rewrite nth_map_seq_rows.
  destruct (Nat.ltb_spec i (ncols A)) as [Hi|Hi].
  - clear. revert j.
    induction A as [|row A IH]; intros [|j]; simpl; auto; now destruct i.
  - destruct j; simpl; symmetry.
    + destruct (Nat.lt_ge_cases 0 n) as [Hn|Hn].
      * apply nth_overflow.
        destruct A as [|row A]; [simpl; lia|]. exact Hi.
      * destruct HA as [HA _]. destruct A; [now destruct i|simpl in HA; lia].
    + destruct (Nat.lt_ge_cases (S j) n) as [Hn|Hn].
      * apply nth_overflow. rewrite (shape_nth A n m) by assumption.
        rewrite (ncols_shape A n m) in Hi by (assumption || lia). exact Hi.
      * destruct HA as [HA _]. rewrite (nth_overflow A) by lia. now destruct i.
Qed.

Lemma shape_transpose (A : matrix) (n : nat) :
  shape A n n -> shape (transpose A) n n.
Proof.
  intros HA. destruct (Nat.eq_dec n 0) as [->|Hn].
  - destruct HA as [HA _]. destruct A; [|discriminate].
    split; [reflexivity|constructor].
  - unfold transpose. rewrite (ncols_shape A n n) by (assumption || lia).
    split; [now rewrite length_map, length_seq|].
    apply Forall_forall. intros row Hin. apply in_map_iff in Hin.
    destruct Hin as [c [<- _]]. rewrite length_map. apply HA.
Qed.

Lemma get_sqrt (A : matrix) (i j : nat) :
  get (Np.sqrt A) i j = R_sqrt.sqrt (get A i j).
Proof.
  unfold get, Np.sqrt.
  change (@nil R) with (map R_sqrt.sqrt []).
  rewrite map_nth. rewrite <- sqrt_0 at 1. apply map_nth.
Qed.

Lemma shape_sqrt (A : matrix) (n m : nat) :
  shape A n m -> shape (Np.sqrt A) n m.
Proof.
  intros [Hn HA]. split; [unfold Np.sqrt; now rewrite length_map|].
  unfold Np.sqrt. apply Forall_forall. intros row Hin.
  apply in_map_iff in Hin. destruct Hin as [r [<- Hr]].
  rewrite length_map. rewrite Forall_forall in HA. now apply HA.
Qed.

End NpFacts.

(** ** The chain aggregation *)

Section ChainFacts.

Import Np.

Lemma sum_from (l : array) (a : R) : fold_left Rplus l a = a + sum l.
Proof.
  unfold sum. revert a.
  induction l as [|x l IH]; intros a; simpl; [lra|].
  rewrite (IH (a + x)), (IH (0 + x)). lra.
Qed.

Lemma sum_cons (x : R) (l : array) : sum (x :: l) = x + sum l.
Proof. unfold sum at 1. simpl. rewrite sum_from. lra. Qed.

Lemma sum_nil : sum [] = 0.
Proof. reflexivity. Qed.

Lemma skipn_nth_cons (v : array) (a : nat) :
  (a < length v)%nat -> skipn a v = nth a v 0 :: skipn (S a) v.
Proof.
  revert a. induction v as [|x v IH]; intros a Ha; simpl in Ha; [lia|].
  destruct a as [|a]; [reflexivity|].
  simpl. apply IH. lia.
Qed.

Lemma firstn_skipn_seq (v : array) (c a : nat) :
  (a + c <= length v)%nat ->
  firstn c (skipn a v) = map (fun k => nth k v 0) (seq a c).
Proof.
  revert a. induction c as [|c IH]; intros a H; [reflexivity|].
  rewrite skipn_nth_cons by lia. cbn [seq map firstn]. f_equal. apply IH. lia.
Qed.

Lemma path_sum_range (v : array) (i j : nat) :
  (i < j <= length v)%nat ->
  path v i j = sum_range (fun k => nth k v 0) i j.
Proof.
  intros H. unfold path, sum_range, slice.
  replace (j - i)%nat with (S (j - (i + 1))) by lia.
  simpl. rewrite sum_cons. f_equal.
  rewrite firstn_skipn_seq by lia.
  now rewrite Nat.add_1_r.
Qed.

Lemma path_adjacent (v : array) (i : nat) : path v i (i + 1) = nth i v 0.
Proof.
  unfold path, slice. rewrite Nat.sub_diag. simpl. rewrite sum_nil. lra.
Qed.

Lemma length_chain (n : nat) (v : array) (j : nat) :
  length (chain n v j) = (n - j)%nat.
Proof. unfold chain. now rewrite length_map, length_seq. Qed.

Lemma nth_chain (n : nat) (v : array) (j i : nat) :
  nth i (chain n v j) 0 =
  if (i <? n - j)%nat then path v i (i + j + 1) else 0.
Proof.
  unfold chain.
  exact (nth_map_seq (fun i => nth i v 0 + sum (slice (i + 1) (i + j + 1) v))
                     (n - j) i).
Qed.

Lemma upper_zeros (n : nat) (v : array) : upper n v 0 (zeros (n + 1) (n + 1)).
Proof.
  split; [apply shape_zeros|]. intros i j. rewrite get_zeros.
  destruct (Nat.ltb_spec i j), (Nat.leb_spec j (i + 0)); simpl;
    try reflexivity; lia.
Qed.

Lemma upper_zeros_like (n : nat) (v : array) :
  upper n v 0 (zeros_like (zeros (n + 1) (n + 1))).
Proof.
  split; [apply shape_zeros_like, shape_zeros|]. intros i j.
  rewrite get_zeros_like.
  destruct (Nat.ltb_spec i j), (Nat.leb_spec j (i + 0)); simpl;
    try reflexivity; lia.
Qed.

(** One turn of the outer loop fills the next superdiagonal. *)
Lemma upper_step (n : nat) (v : array) (m : nat) (A : matrix) :
  (m < n)%nat -> upper n v m A ->
  upper n v (S m) (add A (diagflat (chain n v m) (m + 1))).
Proof.
  intros Hm [Hshape Hget].
  assert (Hd : shape (diagflat (chain n v m) (m + 1)) (n + 1) (n + 1)).
  { pose proof (shape_diagflat (chain n v m) (m + 1)) as Hs.
    rewrite length_chain in Hs.
    replace (n - m + (m + 1))%nat with (n + 1)%nat in Hs by lia. exact Hs. }
  split; [now apply shape_add|].
  intros i j.
  rewrite (get_add A _ (n + 1) (n + 1)) by assumption.
  rewrite Hget, get_diagflat, nth_chain.
  destruct (Nat.eqb_spec j (i + (m + 1))) as [E|E].
  - subst j. replace (i + (m + 1))%nat with (i + m + 1)%nat by lia.
    destruct (Nat.ltb_spec i (i + m + 1)); [|lia].
    destruct (Nat.leb_spec (i + m + 1) (i + m)); [lia|].
    destruct (Nat.leb_spec (i + m + 1) (i + S m)); [|lia].
    destruct (Nat.leb_spec (i + m + 1) n), (Nat.ltb_spec i (n - m));
      simpl; try lra; lia.
  - destruct (Nat.ltb_spec i j), (Nat.leb_spec j (i + m)),
      (Nat.leb_spec j (i + S m)), (Nat.leb_spec j n); simpl; try lra; lia.
Qed.

Lemma assemble_fold (d v : array) (m : nat) :
  (m <= length d)%nat ->
  forall A V,
    fold_left (assemble_step d v) (seq 0 m)
              (zeros (length d + 1) (length d + 1),
               zeros_like (zeros (length d + 1) (length d + 1))) = (A, V) ->
    upper (length d) d m A /\ upper (length d) v m V.
Proof.
  induction m as [|m IH]; intros Hm A V.
  - simpl. intros E. injection E as <- <-.
    split; [apply upper_zeros|apply upper_zeros_like].
  - rewrite seq_S, fold_left_app. simpl.
    destruct (fold_left (assemble_step d v) (seq 0 m) _) as [A0 V0] eqn:E0.
    destruct (IH ltac:(lia) A0 V0 eq_refl) as [HA HV].
    unfold assemble_step. intros E. injection E as <- <-.
    split; apply upper_step; (lia || assumption).
Qed.

Lemma assemble_upper (d v : array) (A V : matrix) :
  assemble d v = (A, V) ->
  upper (length d) d (length d) A /\ upper (length d) v (length d) V.
Proof. unfold assemble. apply assemble_fold. lia. Qed.

(** The entries of a matrix whose upper triangle is complete. *)
Lemma upper_full_get (n : nat) (v : array) (A : matrix) (i j : nat) :
  upper n v n A -> (i <= n)%nat -> (j <= n)%nat ->
  get A i j = if (i <? j)%nat then path v i j else 0.
Proof.
  intros [_ H] Hi Hj. rewrite H.
  destruct (Nat.ltb_spec i j), (Nat.leb_spec j (i + n)), (Nat.leb_spec j n);
    simpl; try reflexivity; lia.
Qed.

(** [adelta - adelta.T] *)
Lemma antisym_get (n : nat) (v : array) (A : matrix) (i j : nat) :
  upper n v n A -> (i <= n)%nat -> (j <= n)%nat ->
  get (sub A (transpose A)) i j =
  (if (i <? j)%nat then path v i j else 0)
  - (if (j <? i)%nat then path v j i else 0).
Proof.
  intros HA Hi Hj. pose proof HA as [Hs _].
  rewrite (get_sub A _ (n + 1) (n + 1)) by (auto using shape_transpose).
  rewrite (get_transpose A (n + 1) (n + 1)) by assumption.
  now rewrite !(upper_full_get n v A) by assumption.
Qed.

(** [np.sqrt(ad_delta + ad_delta.T)] *)
Lemma sym_sqrt_get (n : nat) (v : array) (V : matrix) (i j : nat) :
  upper n v n V -> (i <= n)%nat -> (j <= n)%nat ->
  get (Np.sqrt (add V (transpose V))) i j =
  R_sqrt.sqrt ((if (i <? j)%nat then path v i j else 0)
               + (if (j <? i)%nat then path v j i else 0)).
Proof.
  intros HV Hi Hj. pose proof HV as [Hs _].
  rewrite get_sqrt.
  rewrite (get_add V _ (n + 1) (n + 1)) by (auto using shape_transpose).
  rewrite (get_transpose V (n + 1) (n + 1)) by assumption.
  now rewrite !(upper_full_get n v V) by assumption.
Qed.

End ChainFacts.

(** ** Sorting and grouping *)

Section PandasFacts.

Lemma insert_row_perm (x : sample) (l : list sample) :
  Permutation (insert_row x l) (x :: l).
Proof.
  induction l as [|y l IH]; simpl; [reflexivity|].
  destruct (key_leb x y); [reflexivity|].
  rewrite IH. apply perm_swap.
Qed.

Lemma sort_rows_perm (l : list sample) : Permutation (sort_rows l) l.
Proof.
  induction l as [|x l IH]; simpl; [reflexivity|].
  rewrite insert_row_perm. now constructor.
Qed.

Lemma key_leb_total (a b : sample) : key_leb a b = false -> key_leb b a = true.
Proof.
  unfold key_leb. intros H.
  apply orb_false_iff in H. destruct H as [H1 H2].
  apply Z.ltb_ge in H1.
  destruct (Z.eqb_spec (origin a) (origin b)) as [E|E].
  - simpl in H2. apply Z.leb_gt in H2.
    rewrite E, Z.eqb_refl. simpl.
    apply orb_true_iff. right. apply Z.leb_le. lia.
  - apply orb_true_iff. left. apply Z.ltb_lt. lia.
Qed.

Lemma insert_row_sorted (x : sample) (l : list sample) :
  Sorted (fun a b => key_leb a b = true) l ->
  Sorted (fun a b => key_leb a b = true) (insert_row x l).
Proof.
  induction 1 as [|y l Hs IH Hhd]; simpl; [repeat constructor|].
  destruct (key_leb x y) eqn:E.
  - constructor; [now constructor|now constructor].
  - constructor; [exact IH|].
    destruct l as [|z l]; simpl.
    + constructor. now apply key_leb_total.
    + destruct (key_leb x z); constructor;
        [now apply key_leb_total|now inversion Hhd].
Qed.

(** The rows of the sorted frame are in the order of (origin state, time). *)
Lemma sort_rows_sorted (l : list sample) :
  Sorted (fun a b => key_leb a b = true) (sort_rows l).
Proof.
  induction l as [|x l IH]; simpl; [constructor|].
  now apply insert_row_sorted.
Qed.

Lemma filter_perm {A} (p : A -> bool) (l l' : list A) :
  Permutation l l' -> Permutation (filter p l) (filter p l').
Proof.
  induction 1 as [|x l l' _ IH|x y l|l l' l'' _ IH1 _ IH2]; simpl.
  - reflexivity.
  - destruct (p x); [now constructor|exact IH].
  - destruct (p x), (p y); try reflexivity. apply perm_swap.
  - now transitivity (filter p l').
Qed.

Lemma lookup_map (F : label -> list sample) (l : label) (ls : list label) :
  lookup l (map (fun l' => (l', F l')) ls)
  = if in_dec Z.eq_dec l ls then Some (F l) else None.
Proof.
  induction ls as [|l' ls IH]; simpl; [reflexivity|].
  destruct (Z.eqb_spec l l') as [->|N].
  - destruct (Z.eq_dec l' l'); [reflexivity|congruence].
  - rewrite IH. destruct (Z.eq_dec l' l); [congruence|].
    destruct (in_dec Z.eq_dec l ls); reflexivity.
Qed.

(** A group exists exactly for the origin states that have rows, and it
    holds the rows of that state. *)
Lemma get_group_some (u : EnergyTable) (l : label) :
  (exists r, In r (rows u) /\ origin r = l) ->
  get_group l (groupby u) = inr (filter (is_origin l) (rows u)).
Proof.
  intros [r [Hin Hl]]. unfold get_group, groupby.
  rewrite (lookup_map (fun l => filter (is_origin l) (rows u))).
  destruct (in_dec Z.eq_dec l _) as [_|N]; [reflexivity|].
  exfalso. apply N. apply nodup_In. apply in_map_iff. now exists r.
Qed.

Lemma get_group_none (u : EnergyTable) (l : label) :
  (forall r, In r (rows u) -> origin r <> l) ->
  get_group l (groupby u) = inl (KeyError l).
Proof.
  intros H. unfold get_group, groupby.
  rewrite (lookup_map (fun l => filter (is_origin l) (rows u))).
  destruct (in_dec Z.eq_dec l _) as [Hin|_]; [|reflexivity].
  exfalso. apply nodup_In, in_map_iff in Hin.
  destruct Hin as [r [Hl Hin]]. now apply (H r).
Qed.

Lemma get_group_inv (u : EnergyTable) (l : label) :
  (exists r, In r (rows u) /\ origin r = l) /\
    get_group l (groupby u) = inr (filter (is_origin l) (rows u))
  \/ (forall r, In r (rows u) -> origin r <> l) /\
    get_group l (groupby u) = inl (KeyError l).
Proof.
  destruct (in_dec Z.eq_dec l (map origin (rows u))) as [Hin|N].
  - left. apply in_map_iff in Hin. destruct Hin as [r [Hl Hin]].
    assert (H : exists r, In r (rows u) /\ origin r = l) by now exists r.
    split; [exact H|now apply get_group_some].
  - right.
    assert (H : forall r, In r (rows u) -> origin r <> l).
    { intros r Hin E. apply N. apply in_map_iff. now exists r. }
    split; [exact H|now apply get_group_none].
Qed.

Lemma in_sorted_rows (u : EnergyTable) (r : sample) :
  In r (rows (sort_index u)) <-> In r (rows u).
Proof.
  simpl. split; apply Permutation_in;
    [apply sort_rows_perm|symmetry; apply sort_rows_perm].
Qed.

Lemma zip_with_map {A} (f : R -> R -> R) (g h : A -> R) (l : list A) :
  Np.zip_with f (map g l) (map h l) = map (fun x => f (g x) (h x)) l.
Proof. induction l as [|x l IH]; simpl; [reflexivity|now rewrite IH]. Qed.

(** The arguments of the solver call at the position [k], spelled out. *)
Lemma pair_args_inv (u : EnergyTable) (s : BAR) (k : nat) (a : BAR_args) :
  pair_args u s k = inr a ->
  a = mk_args
        (map (forward_work k)
             (filter (is_origin (nth k (columns u) 0%Z)) (rows (sort_index u))))
        (map (reverse_work k)
             (filter (is_origin (nth (k + 1) (columns u) 0%Z)) (rows (sort_index u))))
        (maximum_iterations s) (relative_tolerance s) (verbose s)
  /\ (exists r, In r (rows u) /\ origin r = nth k (columns u) 0%Z)
  /\ (exists r, In r (rows u) /\ origin r = nth (k + 1) (columns u) 0%Z).
Proof.
  unfold pair_args.
  destruct (get_group_inv (sort_index u) (nth k (columns u) 0%Z))
    as [[[r [Hr Ho]] ->]|[_ ->]]; [|discriminate].
  destruct (get_group_inv (sort_index u) (nth (k + 1) (columns u) 0%Z))
    as [[[r1 [Hr1 Ho1]] ->]|[_ ->]]; [|discriminate].
  intros E. injection E as <-.
  unfold series_sub, iloc_col. rewrite !zip_with_map.
  apply (proj1 (in_sorted_rows _ _)) in Hr.
  apply (proj1 (in_sorted_rows _ _)) in Hr1.
  split; [reflexivity|]. split; [now exists r|now exists r1].
Qed.




Lemma Sorted_weaken {A} (P Q : A -> A -> Prop) (l : list A) :
  (forall a b, P a b -> Q a b) -> Sorted P l -> Sorted Q l.
Proof.
  intros H. induction 1 as [|x l _ IH Hhd]; constructor; [exact IH|].
  destruct Hhd; constructor. now apply H.
Qed.

Lemma key_leb_origin (a b : sample) :
  key_leb a b = true -> (origin a <= origin b)%Z.
Proof.
  unfold key_leb. intros H. apply orb_true_iff in H.
  destruct H as [H|H]; [apply Z.ltb_lt in H; lia|].
  apply andb_true_iff in H. destruct H as [H _].
  apply Z.eqb_eq in H. lia.
Qed.

(** The sorted frame lists the rows by non-decreasing origin state. *)
Lemma sort_index_by_origin (u : EnergyTable) :
  Sorted (fun a b => (origin a <= origin b)%Z) (rows (sort_index u)).
Proof.
  apply (Sorted_weaken (fun a b => key_leb a b = true));
    [exact key_leb_origin|apply sort_rows_sorted].
Qed.

End PandasFacts.

(** ** The pair loop *)

Section LoopFacts.

Variable BAR_ : BAR_args -> exn + (R * R).
Variable u : EnergyTable.

Let groups := groupby (sort_index u).

Lemma pair_args_config (s s' : BAR) (k : nat) :
  maximum_iterations s' = maximum_iterations s ->
  relative_tolerance s' = relative_tolerance s ->
  verbose s' = verbose s ->
  pair_args u s' k = pair_args u s k.
Proof. intros H1 H2 H3. unfold pair_args. now rewrite H1, H2, H3. Qed.

(** The loop body, run in a world where [states_] holds the columns. *)
Lemma pair_step_run (d v : Np.array) (k : nat) (w : world) :
  states_ (self w) = Some (columns u) ->
  pair_step BAR_ groups (d, v) k w =
  match pair_args u (self w) k with
  | inl e => (inl e, w)
  | inr a =>
      match BAR_ a with
      | inl e => (inl e, record_call a w)
      | inr (df, ddf) =>
          (inr (Np.append d df, Np.append v (ddf ^ 2)), record_call a w)
      end
  end.
Proof.
  intros Hs. unfold pair_step, pair_args. fold groups.
  generalize groups. intros g.
  unfold get_states_, get_self, bind, lift, ret, raise, call_BAR_, record_call.
  cbv beta iota. rewrite Hs. cbv beta iota.
  destruct (get_group (nth k (columns u) 0%Z) g) as [e|uk];
    [reflexivity|].
  cbv beta iota. rewrite Hs. cbv beta iota.
  destruct (get_group (nth (k + 1) (columns u) 0%Z) g) as [e|uk1];
    [reflexivity|].
  cbv beta iota.
  destruct (BAR_ _) as [e|[df ddf]]; reflexivity.
Qed.

Lemma loop_self (ks : list nat) :
  forall acc w,
    states_ (self w) = Some (columns u) ->
    self (snd (for_each (pair_step BAR_ groups) ks acc w)) = self w.
Proof.
  induction ks as [|k ks IH]; intros [d v] w Hs; [reflexivity|].
  cbn [for_each]. unfold bind. rewrite pair_step_run by assumption.
  destruct (pair_args u (self w) k) as [e|a]; [reflexivity|].
  destruct (BAR_ a) as [e|[df ddf]]; [reflexivity|].
  rewrite IH; [reflexivity|exact Hs].
Qed.

(** A run of the loop that completes: every position gave an estimate,
    and the accumulators grew by them. *)
Lemma loop_ok (ks : list nat) :
  forall d v w d' v' w',
    states_ (self w) = Some (columns u) ->
    for_each (pair_step BAR_ groups) ks (d, v) w = (inr (d', v'), w') ->
    exists est,
      Forall2 (fun k e => pair_result BAR_ u (self w) k = inr e) ks est /\
      d' = d ++ map fst est /\
      v' = v ++ map (fun e => snd e ^ 2) est.
Proof.
  induction ks as [|k ks IH]; intros d v w d' v' w' Hs.
  - cbn. intros E. injection E as <- <- <-.
    exists []. now rewrite !app_nil_r.
  - cbn [for_each]. unfold bind. rewrite pair_step_run by assumption.
    destruct (pair_args u (self w) k) as [e|a] eqn:Ea; [discriminate|].
    destruct (BAR_ a) as [e|[df ddf]] eqn:Eb; [discriminate|].
    intros E. apply IH in E; [|exact Hs].
    destruct E as [est [HF [-> ->]]].
    exists ((df, ddf) :: est). split; [|split].
    + constructor; [|exact HF]. unfold pair_result. now rewrite Ea.
    + unfold Np.append. now rewrite <- app_assoc.
    + unfold Np.append. now rewrite <- app_assoc.
Qed.

(** The first position whose lookup or solver call raises ends the loop
    with that exception. *)
Lemma loop_first_failure (ks1 : list nat) :
  forall k ks2 e acc w,
    states_ (self w) = Some (columns u) ->
    Forall (fun k' => exists r, pair_result BAR_ u (self w) k' = inr r) ks1 ->
    pair_result BAR_ u (self w) k = inl e ->
    fst (for_each (pair_step BAR_ groups) (ks1 ++ k :: ks2) acc w) = inl e.
Proof.
  induction ks1 as [|k1 ks1 IH]; intros k ks2 e [d v] w Hs Hok Hk.
  - cbn [app for_each]. unfold bind. rewrite pair_step_run by assumption.
    unfold pair_result in Hk.
    destruct (pair_args u (self w) k) as [e'|a]; [now injection Hk as ->|].
    rewrite Hk. reflexivity.
  - inversion Hok as [|? ? [r Hr] Hok']; subst.
    cbn [app for_each]. unfold bind. rewrite pair_step_run by assumption.
    unfold pair_result in Hr.
    destruct (pair_args u (self w) k1) as [e'|a]; [discriminate|].
    rewrite Hr. destruct r as [df ddf].
    apply IH; assumption.
Qed.

(** A run of the loop that raises: the exception is the result of some
    position of the range. *)
Lemma loop_err (ks : list nat) :
  forall acc w e w',
    states_ (self w) = Some (columns u) ->
    for_each (pair_step BAR_ groups) ks acc w = (inl e, w') ->
    exists k, In k ks /\ pair_result BAR_ u (self w) k = inl e.
Proof.
  induction ks as [|k ks IH]; intros [d v] w e w' Hs.
  - cbn. discriminate.
  - cbn [for_each]. unfold bind. rewrite pair_step_run by assumption.
    destruct (pair_args u (self w) k) as [e'|a] eqn:Ea.
    + intros E. injection E as <- <-. exists k. split; [now left|].
      unfold pair_result. now rewrite Ea.
    + destruct (BAR_ a) as [e'|[df ddf]] eqn:Eb.
      * intros E. injection E as <- <-. exists k. split; [now left|].
        unfold pair_result. now rewrite Ea.
      * intros E. apply IH in E; [|exact Hs].
        destruct E as [k' [Hin Hk']]. exists k'. split; [now right|exact Hk'].
Qed.

(** The calls the loop records, in order: the [i]-th one carries the
    arguments of the [i]-th position of the range. *)
Lemma loop_calls (ks : list nat) :
  forall acc w,
    states_ (self w) = Some (columns u) ->
    exists calls,
      solver_calls (snd (for_each (pair_step BAR_ groups) ks acc w))
      = solver_calls w ++ calls /\
      forall i c, nth_error calls i = Some c ->
        exists k, nth_error ks i = Some k /\ pair_args u (self w) k = inr c.
Proof.
  induction ks as [|k ks IH]; intros [d v] w Hs.
  - exists []. split; [cbn; now rewrite app_nil_r|].
    intros [|i] c; discriminate.
  - cbn [for_each]. unfold bind. rewrite pair_step_run by assumption.
    destruct (pair_args u (self w) k) as [e'|a] eqn:Ea.
    + exists []. split; [cbn; now rewrite app_nil_r|].
      intros [|i] c; discriminate.
    + assert (Hone : forall i c, nth_error [a] i = Some c ->
                exists k0, nth_error (k :: ks) i = Some k0 /\
                           pair_args u (self w) k0 = inr c).
      { intros [|[|i]] c; cbn; try discriminate.
        intros E. injection E as <-. now exists k. }
      destruct (BAR_ a) as [e'|[df ddf]] eqn:Eb.
      * exists [a]. split; [reflexivity|exact Hone].
      * destruct (IH (Np.append d df, Np.append v (ddf ^ 2)) (record_call a w) Hs)
          as [calls [Hc Hn]].
        exists (a :: calls). split.
        { rewrite Hc. cbn. now rewrite <- app_assoc. }
        intros [|i] c; cbn.
        -- intros E. injection E as <-. now exists k.
        -- intros E. now apply Hn in E.
Qed.

Lemma loop_ok_calls (ks : list nat) :
  forall acc w r w',
    states_ (self w) = Some (columns u) ->
    for_each (pair_step BAR_ groups) ks acc w = (inr r, w') ->
    exists calls,
      solver_calls w' = solver_calls w ++ calls /\ length calls = length ks.
Proof.
  induction ks as [|k ks IH]; intros [d v] w r w' Hs.
  - cbn. intros E. injection E as <- <-.
    exists []. now rewrite app_nil_r.
  - cbn [for_each]. unfold bind. rewrite pair_step_run by assumption.
    destruct (pair_args u (self w) k) as [e|a]; [discriminate|].
    destruct (BAR_ a) as [e|[df ddf]]; [discriminate|].
    intros E. apply IH in E; [|exact Hs].
    destruct E as [calls [Hc Hl]]. exists (a :: calls). split.
    + rewrite Hc. cbn. now rewrite <- app_assoc.
    + cbn. now rewrite Hl.
Qed.

(** The loop does not look at [method] or [initial_f_k]. *)
Lemma loop_reconfigured (g : option (list R)) (m : string) (ks : list nat) :
  forall acc w,
    states_ (self w) = Some (columns u) ->
    for_each (pair_step BAR_ groups) ks acc (reconfigure_world g m w) =
    (fst (for_each (pair_step BAR_ groups) ks acc w),
     reconfigure_world g m (snd (for_each (pair_step BAR_ groups) ks acc w))).
Proof.
  induction ks as [|k ks IH]; intros [d v] w Hs; [reflexivity|].
  cbn [for_each]. unfold bind.
  rewrite !pair_step_run by assumption.
  rewrite (pair_args_config (self w) (self (reconfigure_world g m w)))
    by reflexivity.
  destruct (pair_args u (self w) k) as [e|a]; [reflexivity|].
  destruct (BAR_ a) as [e|[df ddf]]; [reflexivity|].
  change (record_call a (reconfigure_world g m w))
    with (reconfigure_world g m (record_call a w)).
  rewrite IH by exact Hs.
  destruct (for_each _ ks _ (record_call a w)) as [[e|x] w2]; reflexivity.
Qed.

End LoopFacts.

(** ** Frames, shapes and call records *)

Section FrameFacts.

Lemma new_DataFrame_ok (A : Np.matrix) (l : list label) :
  Np.shape A (length l) (length l) ->
  new_DataFrame A l l = inr (mk_frame A l l).
Proof.
  intros [Hn HA]. unfold new_DataFrame.
  rewrite Hn, Nat.eqb_refl. simpl.
  replace (forallb _ A) with true; [reflexivity|].
  symmetry. apply forallb_forall. intros row Hin.
  rewrite Forall_forall in HA. apply Nat.eqb_eq. now apply HA.
Qed.

Lemma new_DataFrame_mismatch (A : Np.matrix) (n : nat) (l : list label) :
  Np.shape A n n -> length l <> n ->
  exists msg, new_DataFrame A l l = inl (ValueError msg).
Proof.
  intros [Hn _] Hl. unfold new_DataFrame. rewrite Hn.
  destruct (Nat.eqb_spec n (length l)); [congruence|].
  simpl. eexists. reflexivity.
Qed.

Lemma Forall2_seq_nth {A} (P : nat -> A -> Prop) (dflt : A) (l : list A) :
  forall a n, Forall2 P (seq a n) l ->
    length l = n /\ forall k, (k < n)%nat -> P (a + k)%nat (nth k l dflt).
Proof.
  induction l as [|x l IH]; intros a [|n] H; inversion H; subst.
  - split; [reflexivity|]. intros k Hk. lia.
  - destruct (IH (S a) n) as [Hl Hn]; [assumption|].
    split; [simpl; now rewrite Hl|].
    intros [|k] Hk; [now rewrite Nat.add_0_r|].
    simpl. replace (a + S k)%nat with (S a + k)%nat by lia.
    apply Hn. lia.
Qed.

Lemma assemble_shapes (d v : Np.array) (A V : Np.matrix) :
  assemble d v = (A, V) ->
  Np.shape (Np.sub A (Np.transpose A)) (length d + 1) (length d + 1) /\
  Np.shape (Np.sqrt (Np.add V (Np.transpose V))) (length d + 1) (length d + 1).
Proof.
  intros E. apply assemble_upper in E. destruct E as [[HA _] [HV _]].
  split.
  - apply shape_sub; [exact HA|now apply shape_transpose].
  - apply shape_sqrt, shape_add; [exact HV|now apply shape_transpose].
Qed.

Lemma new_calls_app (w w' : world) (calls : list BAR_args) :
  solver_calls w' = solver_calls w ++ calls -> new_calls w w' = calls.
Proof.
  intros E. unfold new_calls. rewrite E, skipn_app, skipn_all, Nat.sub_diag.
  reflexivity.
Qed.

End FrameFacts.

(** ** [fit] as a whole *)

Section FitFacts.

Variable BAR_ : BAR_args -> exn + (R * R).
Variable u : EnergyTable.

Let K := length (columns u).
Let cols := columns u.

(** The world in which the pair loop starts. *)
Let w1 (w : world) := mk_world (with_states_ cols (self w)) (solver_calls w).

Lemma fit_run (w : world) :
  fit BAR_ u w =
  match for_each (pair_step BAR_ (groupby (sort_index u)))
                 (seq 0 (K - 1)) ([], []) (w1 w) with
  | (inl e, w2) => (inl e, w2)
  | (inr (d, v), w2) =>
      let '(A, V) := assemble d v in
      match new_DataFrame (Np.sub A (Np.transpose A)) cols cols with
      | inl e => (inl e, w2)
      | inr D =>
          match new_DataFrame (Np.sqrt (Np.add V (Np.transpose V))) cols cols with
          | inl e =>
              (inl e, mk_world (with_delta_f_ D (self w2)) (solver_calls w2))
          | inr dD =>
              (inr tt,
               mk_world (with_d_delta_f_ dD (with_delta_f_ D (self w2)))
                        (solver_calls w2))
          end
      end
  end.
Proof.
  unfold fit. cbv zeta. unfold bind at 1. unfold set_states_, set_self.
  cbv beta iota. rewrite length_map.
  change (columns (sort_index u)) with cols.
  change (length cols) with K.
  change {| self := with_states_ cols (self w); solver_calls := solver_calls w |} with (w1 w).
  unfold bind at 1.
  pose proof (loop_self BAR_ u (seq 0 (K - 1)) ([], []) (w1 w) eq_refl) as Hself.
  destruct (for_each _ _ _ _) as [[e|[d v]] w2]; [reflexivity|].
  cbn [snd] in Hself.
  destruct (assemble d v) as [A V].
  assert (Hst : states_ (self w2) = Some cols) by now rewrite Hself.
  unfold get_states_, get_self, bind, lift, ret, raise,
    set_delta_f_, set_d_delta_f_, set_self.
  cbv beta iota. rewrite Hst. cbv beta iota.
  destruct (new_DataFrame (Np.sub A (Np.transpose A)) cols cols) as [e|D];
    [reflexivity|].
  cbn [self states_ with_delta_f_]. rewrite Hst. cbv beta iota.
  destruct (new_DataFrame (Np.sqrt _) cols cols) as [e|dD]; reflexivity.
Qed.

Lemma pair_result_w1 (w : world) (k : nat) :
  pair_result BAR_ u (self (w1 w)) k = pair_result BAR_ u (self w) k.
Proof.
  unfold pair_result.
  now rewrite (pair_args_config u (self w) (self (w1 w))).
Qed.

(** What a successful run leaves behind. *)
Lemma fit_ok_inv (w w' : world) :
  fit BAR_ u w = (inr tt, w') ->
  (1 <= K)%nat /\
  exists est A V,
    Forall2 (fun k e => pair_result BAR_ u (self w) k = inr e)
            (seq 0 (K - 1)) est /\
    assemble (map fst est) (map (fun e => snd e ^ 2) est) = (A, V) /\
    self w' =
      with_d_delta_f_
        (mk_frame (Np.sqrt (Np.add V (Np.transpose V))) cols cols)
        (with_delta_f_ (mk_frame (Np.sub A (Np.transpose A)) cols cols)
                       (with_states_ cols (self w))).
Proof.
  rewrite fit_run.
  pose proof (loop_self BAR_ u (seq 0 (K - 1)) ([], []) (w1 w) eq_refl) as Hself.
  destruct (for_each _ _ _ _) as [[e|[d v]] w2] eqn:Eloop; [discriminate|].
  cbn [snd] in Hself.
  apply loop_ok in Eloop; [|reflexivity].
  destruct Eloop as [est [HF [-> ->]]]. cbn [app].
  destruct (assemble _ _) as [A V] eqn:EA.
  destruct (assemble_shapes _ _ _ _ EA) as [HsA HsV].
  pose proof (Forall2_seq_nth _ (0, 0) _ _ _ HF) as [Hlen _].
  rewrite length_map, Hlen in HsA, HsV.
  destruct (Nat.eq_dec K 0) as [K0|K0].
  - destruct (new_DataFrame_mismatch _ _ cols HsA) as [msg ->];
      [change (length cols) with K; lia|discriminate].
  - replace (K - 1 + 1)%nat with (length cols) in HsA, HsV
      by (change (length cols) with K; lia).
    rewrite (new_DataFrame_ok _ _ HsA), (new_DataFrame_ok _ _ HsV).
    intros E. injection E as <-.
    split; [lia|]. exists est, A, V. split; [|split].
    + eapply Forall2_impl; [|exact HF].
      intros k e. cbv beta. now rewrite pair_result_w1.
    + exact EA.
    + cbn [self]. now rewrite Hself.
Qed.

(** What a run that raises leaves behind, and where the exception comes
    from. *)
Lemma fit_err_inv (w w' : world) (e : exn) :
  fit BAR_ u w = (inl e, w') ->
  self w' = with_states_ cols (self w) /\
  ((exists k, (k < K - 1)%nat /\ pair_result BAR_ u (self w) k = inl e)
   \/ K = 0%nat /\ exists msg, e = ValueError msg).
Proof.
  rewrite fit_run.
  pose proof (loop_self BAR_ u (seq 0 (K - 1)) ([], []) (w1 w) eq_refl) as Hself.
  destruct (for_each _ _ _ _) as [[e'|[d v]] w2] eqn:Eloop.
  - cbn [snd] in Hself. intros E. injection E as <- <-.
    split; [exact Hself|]. left.
    apply loop_err in Eloop; [|reflexivity].
    destruct Eloop as [k [Hin Hk]]. exists k.
    apply in_seq in Hin. split; [lia|]. now rewrite <- pair_result_w1.
  - cbn [snd] in Hself.
    apply loop_ok in Eloop; [|reflexivity].
    destruct Eloop as [est [HF [-> ->]]]. cbn [app].
    destruct (assemble _ _) as [A V] eqn:EA.
    destruct (assemble_shapes _ _ _ _ EA) as [HsA HsV].
    pose proof (Forall2_seq_nth _ (0, 0) _ _ _ HF) as [Hlen _].
    rewrite length_map, Hlen in HsA, HsV.
    destruct (Nat.eq_dec K 0) as [K0|K0].
    + destruct (new_DataFrame_mismatch _ _ cols HsA) as [msg ->];
        [change (length cols) with K; lia|].
      intros E. injection E as <- <-.
      split; [exact Hself|]. right. split; [exact K0|now exists msg].
    + replace (K - 1 + 1)%nat with (length cols) in HsA, HsV
      by (change (length cols) with K; lia).
      rewrite (new_DataFrame_ok _ _ HsA), (new_DataFrame_ok _ _ HsV).
      discriminate.
Qed.

(** The first position that raises decides the outcome of [fit]. *)
Lemma fit_first_failure (w : world) (k : nat) (e : exn) :
  (k < K - 1)%nat ->
  (forall k', (k' < k)%nat -> exists r, pair_result BAR_ u (self w) k' = inr r) ->
  pair_result BAR_ u (self w) k = inl e ->
  exists w', fit BAR_ u w = (inl e, w') /\
             self w' = with_states_ cols (self w).
Proof.
  intros Hk Hok He.
  pose proof (loop_self BAR_ u (seq 0 (K - 1)) ([], []) (w1 w) eq_refl) as Hself.
  assert (Hfst : fst (for_each (pair_step BAR_ (groupby (sort_index u)))
                               (seq 0 (K - 1)) ([], []) (w1 w)) = inl e).
  { replace (K - 1)%nat with (k + S (K - 1 - S k))%nat by lia.
    rewrite seq_app. cbn [seq]. rewrite Nat.add_0_l.
    apply loop_first_failure; [reflexivity| |now rewrite pair_result_w1].
    apply Forall_forall. intros k' Hin. apply in_seq in Hin.
    rewrite pair_result_w1. apply Hok. lia. }
  rewrite fit_run.
  destruct (for_each _ _ _ _) as [[e'|[d v]] w2]; cbn [fst snd] in *;
    [|discriminate].
  injection Hfst as ->. now exists w2.
Qed.

(** When no position raises and there is a column, [fit] succeeds. *)
Lemma fit_succeeds (w : world) :
  (1 <= K)%nat ->
  (forall k, (k < K - 1)%nat -> exists r, pair_result BAR_ u (self w) k = inr r) ->
  exists w', fit BAR_ u w = (inr tt, w').
Proof.
  intros HK Hok.
  destruct (fit BAR_ u w) as [[e|[]] w'] eqn:E; [|now exists w'].
  apply fit_err_inv in E. destruct E as [_ [[k [Hk He]]|[K0 _]]]; [|lia].
  destruct (Hok k Hk) as [r Hr]. congruence.
Qed.

(** The solver calls of a run, in order. *)
Lemma fit_calls (w : world) :
  exists calls,
    solver_calls (snd (fit BAR_ u w)) = solver_calls w ++ calls /\
    forall i c, nth_error calls i = Some c ->
      (i < K - 1)%nat /\ pair_args u (self w) i = inr c.
Proof.
  destruct (loop_calls BAR_ u (seq 0 (K - 1)) ([], []) (w1 w) eq_refl)
    as [calls [Hc Hn]].
  exists calls. split.
  - rewrite fit_run.
    destruct (for_each _ _ _ _) as [[e|[d v]] w2]; cbn [snd] in *;
      [exact Hc|].
    destruct (assemble d v) as [A V].
    destruct (new_DataFrame _ cols cols); [exact Hc|].
    destruct (new_DataFrame _ cols cols); exact Hc.
  - intros i c Hi. destruct (Hn i c Hi) as [k [Hk Ha]].
    assert (Hlt : (i < K - 1)%nat).
    { assert (Hs : nth_error (seq 0 (K - 1)) i <> None) by congruence.
      apply nth_error_Some in Hs. now rewrite length_seq in Hs. }
    rewrite nth_error_seq in Hk.
    destruct (Nat.ltb_spec i (K - 1)); [|lia]. injection Hk as <-.
    split; [exact Hlt|].
    now rewrite <- (pair_args_config u (self w) (self (w1 w))).
Qed.

(** A successful run has called the solver once per adjacent pair. *)
Lemma fit_ok_calls (w w' : world) :
  fit BAR_ u w = (inr tt, w') ->
  length (new_calls w w') = (K - 1)%nat.
Proof.
  rewrite fit_run.
  destruct (for_each _ _ _ _) as [[e|[d v]] w2] eqn:Eloop; [discriminate|].
  apply loop_ok_calls in Eloop; [|reflexivity].
  destruct Eloop as [calls [Hc Hl]]. rewrite length_seq in Hl.
  destruct (assemble d v) as [A V].
  destruct (new_DataFrame _ cols cols); [discriminate|].
  destruct (new_DataFrame _ cols cols); [discriminate|].
  intros E. injection E as <-.
  rewrite (new_calls_app w _ calls); [exact Hl|exact Hc].
Qed.

(** [fit] does not look at [method] or [initial_f_k]. *)
Lemma fit_reconfigured (g : option (list R)) (m : string) (w : world) :
  fit BAR_ u (reconfigure_world g m w) =
  (fst (fit BAR_ u w), reconfigure_world g m (snd (fit BAR_ u w))).
Proof.
  rewrite !fit_run.
  change (w1 (reconfigure_world g m w)) with (reconfigure_world g m (w1 w)).
  rewrite loop_reconfigured by reflexivity.
  destruct (for_each _ _ _ (w1 w)) as [[e|[d v]] w2]; [reflexivity|].
  cbn [fst snd].
  destruct (assemble d v) as [A V].
  destruct (new_DataFrame _ cols cols); [reflexivity|].
  destruct (new_DataFrame _ cols cols); reflexivity.
Qed.


End FitFacts.

(** ** Sums over a range of chain positions *)

Section SumFacts.

Lemma sum_range_ext (f g : nat -> R) (i j : nat) :
  (forall k, (i <= k < j)%nat -> f k = g k) ->
  sum_range f i j = sum_range g i j.
Proof.
  intros H. unfold sum_range. f_equal. apply map_ext_in.
  intros k Hk. apply in_seq in Hk. apply H. lia.
Qed.

Lemma sum_range_single (f : nat -> R) (i : nat) : sum_range f i (i + 1) = f i.
Proof.
  unfold sum_range. replace (i + 1 - i)%nat with 1%nat by lia.
  cbn [seq map]. rewrite sum_cons, sum_nil. lra.
Qed.



Lemma path_map {A} (f : A -> R) (dflt : A) (l : list A) (i j : nat) :
  (i < j <= length l)%nat ->
  path (map f l) i j = sum_range (fun k => f (nth k l dflt)) i j.
Proof.
  intros H. rewrite path_sum_range by (rewrite length_map; lia).
  apply sum_range_ext. intros k Hk.
  rewrite (nth_indep _ 0 (f dflt)) by (rewrite length_map; lia).
  apply map_nth.
Qed.

End SumFacts.

(** ** The entries of the two output frames *)

Section Entries.

Variable BAR_ : BAR_args -> exn + (R * R).
Variable u : EnergyTable.

Let K := length (columns u).

(** After a successful run the two frames hold, above the diagonal, the
    sums of the estimates (resp. of their squared errors) along the chain,
    and below it the mirrored values. *)
Lemma fit_ok_entries (w w' : world) :
  fit BAR_ u w = (inr tt, w') ->
  exists est D dD,
    (1 <= K)%nat /\ length est = (K - 1)%nat /\
    (forall k, (k < K - 1)%nat ->
       pair_result BAR_ u (self w) k = inr (nth k est (0, 0))) /\
    states_ (self w') = Some (columns u) /\
    delta_f_ (self w') = Some D /\
    d_delta_f_ (self w') = Some dD /\
    (forall i j, (i < K)%nat -> (j < K)%nat ->
       iat D i j =
       (if (i <? j)%nat
        then sum_range (fun k => fst (nth k est (0, 0))) i j else 0)
       - (if (j <? i)%nat
          then sum_range (fun k => fst (nth k est (0, 0))) j i else 0)) /\
    (forall i j, (i < K)%nat -> (j < K)%nat ->
       iat dD i j =
       sqrt ((if (i <? j)%nat
              then sum_range (fun k => snd (nth k est (0, 0)) ^ 2) i j else 0)
             + (if (j <? i)%nat
                then sum_range (fun k => snd (nth k est (0, 0)) ^ 2) j i
                else 0))).
Proof.
  intros Hfit. apply fit_ok_inv in Hfit.
  destruct Hfit as [HK [est [A [V [HF [EA Hself]]]]]].
  fold K in HK, HF.
  destruct (Forall2_seq_nth _ (0, 0) _ _ _ HF) as [Hlen Hnth].
  apply assemble_upper in EA. rewrite !length_map in EA.
  destruct EA as [HA HV]. rewrite Hlen in HA, HV.
  eexists est, _, _. rewrite Hself.
  split; [exact HK|]. split; [exact Hlen|].
  split; [intros k Hk; exact (Hnth k Hk)|].
  split; [reflexivity|]. split; [reflexivity|]. split; [reflexivity|].
  split; intros i j Hi Hj; unfold iat; cbn [values].
  - rewrite (antisym_get (K - 1) (map fst est) A) by (assumption || lia).
    destruct (Nat.ltb_spec i j), (Nat.ltb_spec j i); try lia;
      rewrite ?(path_map fst (0, 0)) by lia; reflexivity.
  - rewrite (sym_sqrt_get (K - 1) (map (fun e => snd e ^ 2) est) V)
      by (assumption || lia).
    destruct (Nat.ltb_spec i j), (Nat.ltb_spec j i); try lia;
      rewrite ?(path_map (fun e => snd e ^ 2) (0, 0)) by lia; reflexivity.
Qed.

End Entries.

(** * The properties of the specification *)

Ltac ltb_cases :=
  repeat match goal with
         | |- context [(?a <? ?b)%nat] => destruct (Nat.ltb_spec a b); try lia
         end.

(** Splits a successful run into the estimates and the entries of the two
    frames, and identifies the frames [D] and [dD] of the statement. *)
Ltac run_entries Hfit est Hres Hent Hdent :=
  let D0 := fresh "D0" in
  let dD0 := fresh "dD0" in
  let HK := fresh "HK" in
  let Hlen := fresh "Hlen" in
  let Hst := fresh "Hst" in
  let HD0 := fresh "HD0" in
  let HdD0 := fresh "HdD0" in
  destruct (fit_ok_entries _ _ _ _ Hfit)
    as (est & D0 & dD0 & HK & Hlen & Hres & Hst & HD0 & HdD0 & Hent & Hdent);
  repeat match goal with
         | H : delta_f_ _ = Some _ |- _ =>
             rewrite HD0 in H; injection H as <-
         | H : d_delta_f_ _ = Some _ |- _ =>
             rewrite HdD0 in H; injection H as <-
         end.

Section Claims.

Variable BAR_ : BAR_args -> exn + (R * R).
Variable u : EnergyTable.

Let K := length (columns u).


(** C2 (antisymmetry).  After a successful run of [fit], [delta_f_[i,j] =
    - delta_f_[j,i]] for all positions [i], [j], and the diagonal is
    zero. *)
Theorem fit_delta_f_antisymmetric (w w' : world) (D : DataFrame) :
  fit BAR_ u w = (inr tt, w') ->
  delta_f_ (self w') = Some D ->
  forall i j, (i < K)%nat -> (j < K)%nat ->
    iat D i j = - iat D j i /\ iat D i i = 0.
Proof.
  intros Hfit HD. run_entries Hfit est Hres Hent Hdent.
  intros i j Hi Hj.
  rewrite (Hent i j), (Hent j i), (Hent i i) by assumption.
  rewrite Nat.ltb_irrefl. split; [|lra].
  ltb_cases; lra.
Qed.



(** C5 (adjacency consistency).  After a successful run of [fit], for
    every chain position [k = 0 .. K-2] the solver returned an estimate
    [(df_k, ddf_k)] for the pair [(k, k+1)], and [delta_f_[k,k+1] = df_k]. *)
Theorem fit_adjacent_is_pairwise_estimate (w w' : world) (D : DataFrame) :
  fit BAR_ u w = (inr tt, w') ->
  delta_f_ (self w') = Some D ->
  forall k, (k + 1 < K)%nat ->
    exists df ddf,
      pair_result BAR_ u (self w) k = inr (df, ddf) /\
      iat D k (k + 1) = df.
Proof.
  intros Hfit HD. run_entries Hfit est Hres Hent Hdent.
  intros k Hk.
  exists (fst (nth k est (0, 0))), (snd (nth k est (0, 0))). split.
  - rewrite Hres by (fold K; lia). now rewrite <- surjective_pairing.
  - rewrite Hent by (fold K; lia). ltb_cases.
    rewrite sum_range_single. lra.
Qed.

End Claims.

Section RunClaims.

Variable BAR_ : BAR_args -> exn + (R * R).
Variable u : EnergyTable.

Let K := length (columns u).

(** C6 (work sequences).  The [k]-th solver call of a run of [fit] gets
    [w_F] = potential at column [k+1] minus potential at column [k] over
    the rows of the sorted table whose origin is the label of column [k],
    and [w_R] = potential at column [k] minus potential at column [k+1]
    over the rows whose origin is the label of column [k+1]; the sorted
    table lists the rows by origin state, and each group holds exactly the
    rows of the input with that origin.  A successful run makes one call
    per adjacent pair. *)
Theorem fit_solver_work_sequences (w : world) (k : nat) (c : BAR_args) :
  nth_error (new_calls w (snd (fit BAR_ u w))) k = Some c ->
  let sorted := rows (sort_index u) in
  let uk := filter (is_origin (nth k (columns u) 0%Z)) sorted in
  let uk1 := filter (is_origin (nth (k + 1) (columns u) 0%Z)) sorted in
  (k + 1 < K)%nat /\
  w_F c = map (forward_work k) uk /\
  w_R c = map (reverse_work k) uk1 /\
  Sorted (fun a b => (origin a <= origin b)%Z) sorted /\
  Permutation uk (filter (is_origin (nth k (columns u) 0%Z)) (rows u)) /\
  Permutation uk1 (filter (is_origin (nth (k + 1) (columns u) 0%Z)) (rows u)) /\
  (fst (fit BAR_ u w) = inr tt ->
   length (new_calls w (snd (fit BAR_ u w))) = (K - 1)%nat).
Proof.
  intros Hc sorted uk uk1.
  destruct (fit_calls BAR_ u w) as [calls [Happ Hn]].
  rewrite (new_calls_app _ _ _ Happ) in Hc.
  destruct (Hn k c Hc) as [Hk Ha].
  apply pair_args_inv in Ha. destruct Ha as [-> _].
  split; [fold K in Hk; lia|].
  split; [reflexivity|]. split; [reflexivity|].
  split; [apply sort_index_by_origin|].
  split; [apply filter_perm, sort_rows_perm|].
  split; [apply filter_perm, sort_rows_perm|].
  intros Hok. apply (fit_ok_calls BAR_).
  rewrite <- Hok. apply surjective_pairing.
Qed.


(** C8, what the code does: the outcome of [fit], the solver calls it
    makes and the frames it assigns are the same whatever [method] and
    [initial_f_k] the estimator was configured with; neither reaches the
    solver. *)
Theorem fit_ignores_method_and_initial_f_k
    (w : world) (g : option (list R)) (m : string) :
  let r := fit BAR_ u w in
  let r' := fit BAR_ u (reconfigure_world g m w) in
  fst r' = fst r /\
  solver_calls (snd r') = solver_calls (snd r) /\
  delta_f_ (self (snd r')) = delta_f_ (self (snd r)) /\
  d_delta_f_ (self (snd r')) = d_delta_f_ (self (snd r)).
Proof.
  cbv zeta. rewrite fit_reconfigured. repeat split.
Qed.


(** C10 (failure is not atomic).  When the lookup or the solver call of
    the pair [k] is the first to raise, [fit] propagates that exception
    with [states_] already assigned to the columns of the input, while
    [delta_f_] and [d_delta_f_] are as they were before the call. *)
Theorem fit_failure_keeps_states_ (w : world) (k : nat) (e : exn) :
  (k + 1 < K)%nat ->
  (forall k', (k' < k)%nat ->
     exists r, pair_result BAR_ u (self w) k' = inr r) ->
  pair_result BAR_ u (self w) k = inl e ->
  exists w',
    fit BAR_ u w = (inl e, w') /\
    states_ (self w') = Some (columns u) /\
    delta_f_ (self w') = delta_f_ (self w) /\
    d_delta_f_ (self w') = d_delta_f_ (self w).
Proof.
  intros Hk Hok He.
  destruct (fit_first_failure BAR_ u w k e) as [w' [Hfit Hself]];
    [fold K; lia|exact Hok|exact He|].
  exists w'. rewrite Hself. repeat split. exact Hfit.
Qed.

End RunClaims.

(** * Concrete runs *)


Lemma fit_delta_f_antisymmetric_witness :
  exists D,
    delta_f_ (self (snd (fit solver_sum u_three fresh_world))) = Some D /\
    iat D 0 2 = - iat D 2 0 /\ iat D 0 0 = 0.
Proof.
  eexists. split; [reflexivity|].
  apply (fit_delta_f_antisymmetric solver_sum u_three fresh_world _ _
           eq_refl eq_refl 0 2)%nat; cbn; lia.
Defined.



Lemma fit_adjacent_is_pairwise_estimate_witness :
  exists D,
    delta_f_ (self (snd (fit solver_sum u_three fresh_world))) = Some D /\
    exists df ddf,
      pair_result solver_sum u_three (self fresh_world) 1 = inr (df, ddf) /\
      iat D 1 2 = df.
Proof.
  eexists. split; [reflexivity|].
  apply (fit_adjacent_is_pairwise_estimate solver_sum u_three fresh_world _ _
           eq_refl eq_refl 1)%nat. cbn. lia.
Defined.

(** The first solver call of the three-state table: the two rows of state
    [0] come in the order of their time stamps. *)
Lemma fit_solver_work_sequences_witness :
  exists c,
    nth_error (new_calls fresh_world (snd (fit solver_sum u_three fresh_world))) 0
    = Some c /\
    w_F c = map (forward_work 0)
                (filter (is_origin 0%Z) (rows (sort_index u_three))) /\
    w_R c = map (reverse_work 0)
                (filter (is_origin 1%Z) (rows (sort_index u_three))).
Proof.
  eexists. split; [reflexivity|].
  destruct (fit_solver_work_sequences solver_sum u_three fresh_world 0 _ eq_refl)
    as (_ & HF & HR & _).
  split; [exact HF|exact HR].
Defined.



(** No sample of the last state: the second pair raises [KeyError], with
    [states_] assigned and no matrix. *)
Lemma fit_failure_keeps_states__witness :
  exists w',
    fit solver_sum u_gap fresh_world = (inl (KeyError 2%Z), w') /\
    states_ (self w') = Some [0; 1; 2]%Z /\
    delta_f_ (self w') = None /\ d_delta_f_ (self w') = None.
Proof.
  apply (fit_failure_keeps_states_ solver_sum u_gap fresh_world 1 (KeyError 2%Z)).
  - cbn. lia.
  - intros k' Hk'. assert (k' = 0%nat) as -> by lia.
    eexists. reflexivity.
  - reflexivity.
Defined.



(** * Further properties of [fit] *)

(** ** When [fit] returns, and what it leaves in the estimator *)

Section Outcome.

Variable BAR_ : BAR_args -> exn + (R * R).
Variable u : EnergyTable.

Let K := length (columns u).

(** [fit] returns normally exactly when the table has a column and, for
    every adjacent pair, both group lookups and the solver call succeed. *)
Theorem fit_succeeds_iff (w : world) :
  fst (fit BAR_ u w) = inr tt <->
  (1 <= K)%nat /\
  forall k, (k + 1 < K)%nat ->
    exists r, pair_result BAR_ u (self w) k = inr r.
Proof.
  split.
  - intros Hok.
    assert (Hfit : fit BAR_ u w = (inr tt, snd (fit BAR_ u w)))
      by (rewrite <- Hok; apply surjective_pairing).
    apply fit_ok_inv in Hfit. destruct Hfit as [HK [est [A [V [HF _]]]]].
    split; [exact HK|]. intros k Hk.
    destruct (Forall2_seq_nth _ (0, 0) _ _ _ HF) as [_ Hn].
    exists (nth k est (0, 0)). apply (Hn k). fold K. lia.
  - intros [HK Hall].
    destruct (fit_succeeds BAR_ u w HK) as [w' Hfit].
    + intros k Hk. apply Hall. fold K in Hk. lia.
    + now rewrite Hfit.
Qed.

(** After a successful run, [states_] is the list of column labels and
    both frames are [K] by [K], with the column labels as their index and
    as their columns. *)
Theorem fit_frames_shape_and_labels (w w' : world) :
  fit BAR_ u w = (inr tt, w') ->
  exists D dD,
    states_ (self w') = Some (columns u) /\
    delta_f_ (self w') = Some D /\
    d_delta_f_ (self w') = Some dD /\
    df_columns D = columns u /\ df_index D = columns u /\
    df_columns dD = columns u /\ df_index dD = columns u /\
    Np.shape (values D) K K /\ Np.shape (values dD) K K.
Proof.
  intros Hfit. apply fit_ok_inv in Hfit.
  destruct Hfit as [HK [est [A [V [HF [EA ->]]]]]].
  destruct (Forall2_seq_nth _ (0, 0) _ _ _ HF) as [Hlen _].
  destruct (assemble_shapes _ _ _ _ EA) as [HA HV].
  rewrite length_map, Hlen in HA, HV.
  replace (length (columns u) - 1 + 1)%nat with K in HA, HV by (fold K; lia).
  eexists. eexists. repeat (split; [reflexivity|]). split; assumption.
Qed.

(** A table without columns: [fit] assigns [states_ = []], calls the solver
    for no pair and raises the [ValueError] of the first frame
    construction (a 1 by 1 array against an empty index); no matrix is
    assigned. *)
Theorem fit_no_columns_raises (w : world) :
  columns u = [] ->
  exists msg w',
    fit BAR_ u w = (inl (ValueError msg), w') /\
    states_ (self w') = Some [] /\
    delta_f_ (self w') = delta_f_ (self w) /\
    d_delta_f_ (self w') = d_delta_f_ (self w) /\
    solver_calls w' = solver_calls w.
Proof.
  intros Hc. rewrite fit_run. rewrite Hc. cbn.
  eexists. eexists. repeat split.
Qed.


(** [fit] never changes the options of the estimator, whether it returns or
    raises. *)
Theorem fit_keeps_options (w : world) :
  let s' := self (snd (fit BAR_ u w)) in
  maximum_iterations s' = maximum_iterations (self w) /\
  relative_tolerance s' = relative_tolerance (self w) /\
  initial_f_k s' = initial_f_k (self w) /\
  method s' = method (self w) /\
  verbose s' = verbose (self w).
Proof.
  cbv zeta. destruct (fit BAR_ u w) as [[e|[]] w'] eqn:E; cbn [snd].
  - apply fit_err_inv in E. destruct E as [-> _]. repeat split.
  - apply fit_ok_inv in E. destruct E as [_ [est [A [V [_ [_ ->]]]]]].
    repeat split.
Qed.

(** Every solver call of a run carries the estimator's
    [maximum_iterations], [relative_tolerance] and [verbose]. *)
Theorem fit_calls_carry_options (w : world) (c : BAR_args) :
  In c (new_calls w (snd (fit BAR_ u w))) ->
  kw_maximum_iterations c = maximum_iterations (self w) /\
  kw_relative_tolerance c = relative_tolerance (self w) /\
  kw_verbose c = verbose (self w).
Proof.
  intros Hin. destruct (fit_calls BAR_ u w) as [calls [Happ Hn]].
  rewrite (new_calls_app _ _ _ Happ) in Hin.
  apply In_nth_error in Hin. destruct Hin as [i Hi].
  destruct (Hn i c Hi) as [_ Ha].
  apply pair_args_inv in Ha. destruct Ha as [-> _]. repeat split.
Qed.

End Outcome.

(** ** The two frames as differences along the chain *)

Section AlongTheChain.

Variable BAR_ : BAR_args -> exn + (R * R).
Variable u : EnergyTable.

Let K := length (columns u).







End AlongTheChain.

(** ** The solver calls of a run that raises, and runs on a used estimator *)

Section Runs.

Variable BAR_ : BAR_args -> exn + (R * R).
Variable u : EnergyTable.

Let K := length (columns u).

Lemma loop_calls_until_failure (ks1 : list nat) :
  forall k ks2 e acc w,
    states_ (self w) = Some (columns u) ->
    Forall (fun k' => exists r, pair_result BAR_ u (self w) k' = inr r) ks1 ->
    pair_result BAR_ u (self w) k = inl e ->
    length (solver_calls
              (snd (for_each (pair_step BAR_ (groupby (sort_index u))) (ks1 ++ k :: ks2) acc w)))
    = (length (solver_calls w) + length ks1
       + match pair_args u (self w) k with inr _ => 1 | inl _ => 0 end)%nat.
Proof.
  induction ks1 as [|k1 ks1 IH]; intros k ks2 e [d v] w Hs Hok Hk.
  - cbn [app for_each]. unfold bind. rewrite pair_step_run by assumption.
    unfold pair_result in Hk.
    destruct (pair_args u (self w) k) as [e'|a]; cbn [snd length]; [lia|].
    rewrite Hk. cbn. rewrite length_app. cbn. lia.
  - inversion Hok as [|? ? [r Hr] Hok']; subst.
    cbn [app for_each]. unfold bind. rewrite pair_step_run by assumption.
    unfold pair_result in Hr.
    destruct (pair_args u (self w) k1) as [e'|a]; [discriminate|].
    rewrite Hr. destruct r as [df ddf].
    rewrite (IH k ks2 e _ (record_call a w)) by assumption.
    cbn. rewrite length_app. cbn. lia.
Qed.

(** Two worlds whose estimators agree on the solver options go through the
    loop alike: same result, same calls added. *)
Lemma loop_same_options (ks : list nat) :
  forall acc wa wb,
    states_ (self wa) = Some (columns u) ->
    states_ (self wb) = Some (columns u) ->
    same_options (self wa) (self wb) ->
    fst (for_each (pair_step BAR_ (groupby (sort_index u))) ks acc wa)
    = fst (for_each (pair_step BAR_ (groupby (sort_index u))) ks acc wb) /\
    exists calls,
      solver_calls (snd (for_each (pair_step BAR_ (groupby (sort_index u))) ks acc wa))
      = solver_calls wa ++ calls /\
      solver_calls (snd (for_each (pair_step BAR_ (groupby (sort_index u))) ks acc wb))
      = solver_calls wb ++ calls.
Proof.
  induction ks as [|k ks IH]; intros [d v] wa wb Ha Hb Hopt.
  - split; [reflexivity|]. exists []. cbn. now rewrite !app_nil_r.
  - cbn [for_each]. unfold bind. rewrite !pair_step_run by assumption.
    destruct Hopt as (H1 & H2 & H3).
    rewrite (pair_args_config u (self wa) (self wb)) by (symmetry; assumption).
    destruct (pair_args u (self wa) k) as [e|a].
    + split; [reflexivity|]. exists []. cbn. now rewrite !app_nil_r.
    + destruct (BAR_ a) as [e|[df ddf]].
      * split; [reflexivity|]. now exists [a].
      * destruct (IH (Np.append d df, Np.append v (ddf ^ 2))
                     (record_call a wa) (record_call a wb) Ha Hb)
          as [Hfst [calls [Hca Hcb]]]; [repeat split; assumption|].
        split; [exact Hfst|]. exists (a :: calls).
        rewrite Hca, Hcb. cbn. now rewrite <- !app_assoc.
Qed.

(** The run of [fit] on two worlds whose estimators agree on the solver
    options. *)
Lemma fit_same_options (wa wb : world) :
  same_options (self wa) (self wb) ->
  fst (fit BAR_ u wa) = fst (fit BAR_ u wb) /\
  new_calls wa (snd (fit BAR_ u wa)) = new_calls wb (snd (fit BAR_ u wb)) /\
  states_ (self (snd (fit BAR_ u wa))) = states_ (self (snd (fit BAR_ u wb))) /\
  (fst (fit BAR_ u wa) = inr tt ->
   delta_f_ (self (snd (fit BAR_ u wa)))
   = delta_f_ (self (snd (fit BAR_ u wb))) /\
   d_delta_f_ (self (snd (fit BAR_ u wa)))
   = d_delta_f_ (self (snd (fit BAR_ u wb)))).
Proof.
  intros Hopt. rewrite !fit_run.
  set (w1a := mk_world (with_states_ (columns u) (self wa)) (solver_calls wa)).
  set (w1b := mk_world (with_states_ (columns u) (self wb)) (solver_calls wb)).
  assert (Hopt1 : same_options (self w1a) (self w1b)) by exact Hopt.
  pose proof (loop_self BAR_ u (seq 0 (length (columns u) - 1)) ([], [])
                        w1a eq_refl) as Hsa.
  pose proof (loop_self BAR_ u (seq 0 (length (columns u) - 1)) ([], [])
                        w1b eq_refl) as Hsb.
  destruct (loop_same_options (seq 0 (length (columns u) - 1)) ([], [])
                              w1a w1b eq_refl eq_refl Hopt1)
    as [Hfst [calls [Hca Hcb]]].
  destruct (for_each (pair_step BAR_ (groupby (sort_index u))) _ _ w1a) as [ra wa2].
  destruct (for_each (pair_step BAR_ (groupby (sort_index u))) _ _ w1b) as [rb wb2].
  cbn [fst snd] in *. subst rb.
  destruct ra as [e|[d v]].
  - cbn [fst snd]. split; [reflexivity|].
    split; [now rewrite (new_calls_app wa wa2 calls), (new_calls_app wb wb2 calls)|].
    split; [now rewrite Hsa, Hsb|]. discriminate.
  - destruct (assemble d v) as [A V].
    destruct (new_DataFrame (Np.sub A (Np.transpose A)) _ _) as [e|D].
    + cbn [fst snd]. split; [reflexivity|].
      split; [now rewrite (new_calls_app wa wa2 calls), (new_calls_app wb wb2 calls)|].
      split; [now rewrite Hsa, Hsb|]. discriminate.
    + destruct (new_DataFrame (Np.sqrt _) _ _) as [e|dD]; cbn [fst snd self].
      * split; [reflexivity|].
        split; [now rewrite (new_calls_app wa _ calls), (new_calls_app wb _ calls)|].
        split; [cbn; now rewrite Hsa, Hsb|]. discriminate.
      * split; [reflexivity|].
        split; [now rewrite (new_calls_app wa _ calls), (new_calls_app wb _ calls)|].
        split; [cbn; now rewrite Hsa, Hsb|]. intros _. split; reflexivity.
Qed.

(** When the pair [k] is the first to raise, the solver has been called
    for the pairs before it and, if both of its lookups succeeded, for the
    pair [k] itself: once each, and for no later pair. *)
Theorem fit_stops_at_first_failure (w : world) (k : nat) (e : exn) :
  (k + 1 < K)%nat ->
  (forall k', (k' < k)%nat ->
     exists r, pair_result BAR_ u (self w) k' = inr r) ->
  pair_result BAR_ u (self w) k = inl e ->
  length (new_calls w (snd (fit BAR_ u w)))
  = (k + match pair_args u (self w) k with inr _ => 1 | inl _ => 0 end)%nat.
Proof.
  intros Hk Hok He. rewrite fit_run.
  set (w1 := mk_world (with_states_ (columns u) (self w)) (solver_calls w)).
  assert (Hpr : forall n, pair_result BAR_ u (self w1) n
                          = pair_result BAR_ u (self w) n).
  { intros n. unfold pair_result.
    now rewrite (pair_args_config u (self w) (self w1)). }
  assert (Hsplit : seq 0 (length (columns u) - 1)
                   = seq 0 k ++ k :: seq (S k) (K - 1 - S k)).
  { fold K. replace (K - 1)%nat with (k + S (K - 1 - S k))%nat at 1 by lia.
    now rewrite seq_app. }
  assert (Hall : Forall (fun k' => exists r,
                           pair_result BAR_ u (self w1) k' = inr r) (seq 0 k)).
  { apply Forall_forall. intros k' Hin. apply in_seq in Hin.
    rewrite Hpr. apply Hok. lia. }
  pose proof (loop_first_failure BAR_ u (seq 0 k) k (seq (S k) (K - 1 - S k))
                e ([], []) w1 eq_refl Hall ltac:(now rewrite Hpr)) as Hfst.
  pose proof (loop_calls_until_failure (seq 0 k) k (seq (S k) (K - 1 - S k))
                e ([], []) w1 eq_refl Hall ltac:(now rewrite Hpr)) as Hlen.
  destruct (loop_calls BAR_ u (seq 0 (length (columns u) - 1)) ([], []) w1 eq_refl)
    as [calls [Hc _]].
  rewrite <- Hsplit in Hfst, Hlen.
  destruct (for_each (pair_step BAR_ (groupby (sort_index u))) _ _ w1) as [[e'|x] w2];
    cbn [fst snd] in *; [|discriminate].
  rewrite (new_calls_app w w2 calls) by exact Hc.
  rewrite Hc, length_app, length_seq in Hlen.
  rewrite (pair_args_config u (self w) (self w1)) in Hlen by reflexivity.
  cbn [solver_calls w1] in Hlen. lia.
Qed.

(** The outcome of [fit], the solver calls it makes and the attributes it
    assigns depend on the estimator only through [maximum_iterations],
    [relative_tolerance] and [verbose]: results left by an earlier [fit]
    and the other options play no part. *)
Theorem fit_independent_of_earlier_results (wa wb : world) :
  same_options (self wa) (self wb) ->
  fst (fit BAR_ u wa) = fst (fit BAR_ u wb) /\
  new_calls wa (snd (fit BAR_ u wa)) = new_calls wb (snd (fit BAR_ u wb)) /\
  states_ (self (snd (fit BAR_ u wa))) = states_ (self (snd (fit BAR_ u wb))) /\
  (fst (fit BAR_ u wa) = inr tt ->
   delta_f_ (self (snd (fit BAR_ u wa)))
   = delta_f_ (self (snd (fit BAR_ u wb))) /\
   d_delta_f_ (self (snd (fit BAR_ u wa)))
   = d_delta_f_ (self (snd (fit BAR_ u wb)))).
Proof.
  intros Hopt.
  destruct (fit_same_options wa wb Hopt) as (Hout & Hcalls & Hst & Hframes).
  split; [exact Hout|]. split; [exact Hcalls|]. split; [exact Hst|].
  intros Hok. now apply Hframes.
Qed.

(** Fitting the same table again after a successful [fit] succeeds again,
    repeats the same solver calls and leaves the estimator as it was. *)
Theorem fit_again_same_estimator (w w' : world) :
  fit BAR_ u w = (inr tt, w') ->
  exists w'',
    fit BAR_ u w' = (inr tt, w'') /\
    self w'' = self w' /\
    new_calls w' w'' = new_calls w w'.
Proof.
  intros Hfit.
  pose proof (fit_ok_inv BAR_ u w w' Hfit) as [_ [est [A [V [_ [_ Hself]]]]]].
  assert (Hopt : same_options (self w) (self w')) by (rewrite Hself; repeat split).
  destruct (fit_same_options w w' Hopt) as (Hfst & Hcalls & Hst & Hfr).
  rewrite Hfit in Hfst, Hcalls, Hst, Hfr. cbn [fst snd] in *.
  destruct (Hfr eq_refl) as [HD HdD].
  destruct (fit BAR_ u w') as [r w''] eqn:E2. cbn [fst snd] in *. subst r.
  exists w''. split; [reflexivity|]. split; [|now symmetry].
  pose proof (fit_ok_inv BAR_ u w' w'' E2) as [_ [est2 [A2 [V2 [_ [_ Hself2]]]]]].
  rewrite Hself2 in HD, HdD, Hst |- *.
  destruct (self w') as [mi rt ig me vb st dl ddl].
  cbn in *. unfold with_d_delta_f_, with_delta_f_, with_states_. cbn.
  congruence.
Qed.

End Runs.

(** ** Which rows matter, and in which order *)

Section SortFacts.

Lemma key_leb_iff (a b : sample) :
  key_leb a b = true <->
  (origin a < origin b \/ origin a = origin b /\ time a <= time b)%Z.
Proof.
  unfold key_leb.
  rewrite orb_true_iff, andb_true_iff, Z.ltb_lt, Z.eqb_eq, Z.leb_le.
  reflexivity.
Qed.

Lemma key_leb_trans (a b c : sample) :
  key_leb a b = true -> key_leb b c = true -> key_leb a c = true.
Proof. rewrite !key_leb_iff. lia. Qed.

Lemma key_leb_antisym (a b : sample) :
  key_leb a b = true -> key_leb b a = true -> index_key a = index_key b.
Proof.
  rewrite !key_leb_iff. intros H1 H2. unfold index_key.
  f_equal; lia.
Qed.

Lemma sort_rows_strongly_sorted (l : list sample) :
  StronglySorted (fun a b => key_leb a b = true) (sort_rows l).
Proof.
  apply Sorted_StronglySorted; [|apply sort_rows_sorted].
  intros a b c. apply key_leb_trans.
Qed.

Lemma insert_row_first (x : sample) (l : list sample) :
  Forall (fun z => key_leb x z = true) l -> insert_row x l = x :: l.
Proof.
  destruct 1 as [|z l Hz _]; [reflexivity|]. simpl. now rewrite Hz.
Qed.

Lemma Forall_filter {A} (P : A -> Prop) (p : A -> bool) (l : list A) :
  Forall P l -> Forall P (filter p l).
Proof.
  rewrite !Forall_forall. intros H x Hx. apply filter_In in Hx. now apply H.
Qed.

(** Filtering commutes with the insertion into a sorted list. *)
Lemma filter_insert_row (p : sample -> bool) (x : sample) (l : list sample) :
  StronglySorted (fun a b => key_leb a b = true) l ->
  filter p (insert_row x l)
  = if p x then insert_row x (filter p l) else filter p l.
Proof.
  induction 1 as [|y t Ht IH Hy].
  - simpl. now destruct (p x).
  - cbn [insert_row]. destruct (key_leb x y) eqn:Exy.
    + cbn [filter]. destruct (p x); [|reflexivity].
      symmetry. apply insert_row_first.
      apply (Forall_filter _ p (y :: t)). constructor; [exact Exy|].
      eapply Forall_impl; [|exact Hy].
      intros z Hz. now apply (key_leb_trans x y z).
    + cbn [filter]. rewrite IH.
      destruct (p y), (p x); try reflexivity.
      cbn [insert_row]. now rewrite Exy.
Qed.

Lemma sort_rows_filter (p : sample -> bool) (l : list sample) :
  sort_rows (filter p l) = filter p (sort_rows l).
Proof.
  induction l as [|x l IH]; [reflexivity|].
  cbn [sort_rows fold_right filter].
  change (fold_right insert_row [] l) with (sort_rows l).
  rewrite filter_insert_row by apply sort_rows_strongly_sorted.
  destruct (p x); [|exact IH].
  cbn [sort_rows fold_right].
  change (fold_right insert_row [] (filter p l)) with (sort_rows (filter p l)).
  now rewrite IH.
Qed.

Lemma filter_filter_implied {A} (p q : A -> bool) (l : list A) :
  (forall x, p x = true -> q x = true) ->
  filter p (filter q l) = filter p l.
Proof.
  intros H. induction l as [|x l IH]; [reflexivity|]. simpl.
  destruct (q x) eqn:Eq; simpl.
  - now rewrite IH.
  - destruct (p x) eqn:Ep; [|exact IH].
    apply H in Ep. congruence.
Qed.

(** Two insertions of rows with different index entries commute. *)
Lemma insert_row_comm_lt (x y : sample) (l : list sample) :
  key_leb x y = true -> key_leb y x = false ->
  insert_row x (insert_row y l) = insert_row y (insert_row x l).
Proof.
  intros Hxy Hyx. induction l as [|z t IH].
  - simpl. now rewrite Hxy, Hyx.
  - cbn [insert_row].
    destruct (key_leb x z) eqn:Exz, (key_leb y z) eqn:Eyz; cbn [insert_row].
    + now rewrite Hxy, Hyx, Eyz.
    + now rewrite Exz, Hyx, Eyz.
    + exfalso. apply key_leb_total in Exz.
      pose proof (key_leb_trans y z x Eyz Exz). congruence.
    + now rewrite Exz, Eyz, IH.
Qed.

Lemma insert_row_comm (x y : sample) (l : list sample) :
  index_key x <> index_key y ->
  insert_row x (insert_row y l) = insert_row y (insert_row x l).
Proof.
  intros Hne.
  destruct (key_leb x y) eqn:Exy, (key_leb y x) eqn:Eyx.
  - exfalso. now apply Hne, key_leb_antisym.
  - now apply insert_row_comm_lt.
  - symmetry. now apply insert_row_comm_lt.
  - apply key_leb_total in Exy. congruence.
Qed.

(** With pairwise different index entries, the sorted frame does not depend
    on the order of the rows. *)
Lemma sort_rows_order_irrelevant (l l' : list sample) :
  Permutation l l' -> NoDup (map index_key l) -> sort_rows l = sort_rows l'.
Proof.
  induction 1 as [|x l l' Hp IH|x y l|l l' l'' Hp1 IH1 Hp2 IH2]; intros Hnd.
  - reflexivity.
  - cbn [sort_rows fold_right]. f_equal. apply IH.
    now inversion Hnd.
  - cbn [sort_rows fold_right]. apply insert_row_comm.
    inversion Hnd as [|? ? Hnin _]; subst.
    intros E. apply Hnin. left. now symmetry.
  - rewrite IH1 by assumption. apply IH2.
    eapply Permutation_NoDup; [|exact Hnd].
    now apply Permutation_map.
Qed.


Lemma filter_none {A} (p : A -> bool) (l : list A) :
  (forall x, In x l -> p x = false) -> filter p l = [].
Proof.
  induction l as [|x l IH]; intros H; [reflexivity|].
  simpl. rewrite (H x) by now left. apply IH.
  intros y Hy. apply H. now right.
Qed.

(** A group lookup is a function of the rows of that origin state. *)
Lemma get_group_filter (v : EnergyTable) (l : label) :
  get_group l (groupby v)
  = match filter (is_origin l) (rows v) with
    | [] => inl (KeyError l)
    | _ :: _ => inr (filter (is_origin l) (rows v))
    end.
Proof.
  destruct (get_group_inv v l) as [[[r [Hr Ho]] ->]|[Hno ->]].
  - assert (Hin : In r (filter (is_origin l) (rows v))).
    { apply filter_In. split; [exact Hr|]. unfold is_origin.
      now apply Z.eqb_eq. }
    destruct (filter (is_origin l) (rows v)); [contradiction|reflexivity].
  - rewrite filter_none; [reflexivity|].
    intros r Hr. unfold is_origin. apply Z.eqb_neq. now apply Hno.
Qed.

End SortFacts.

Section SameRun.

Variable BAR_ : BAR_args -> exn + (R * R).

(** Two tables with the same columns whose pairs get the same lookups
    and arguments go through the loop alike. *)
Lemma loop_congr (u u' : EnergyTable) (ks : list nat) :
  columns u' = columns u ->
  (forall s k, In k ks -> pair_args u' s k = pair_args u s k) ->
  forall acc w,
    states_ (self w) = Some (columns u) ->
    for_each (pair_step BAR_ (groupby (sort_index u'))) ks acc w
    = for_each (pair_step BAR_ (groupby (sort_index u))) ks acc w.
Proof.
  intros Hc. induction ks as [|k ks IH]; intros Hargs [d v] w Hs;
    [reflexivity|].
  cbn [for_each]. unfold bind.
  rewrite (pair_step_run BAR_ u') by (now rewrite Hc).
  rewrite (pair_step_run BAR_ u) by assumption.
  rewrite Hargs by now left.
  destruct (pair_args u (self w) k) as [e|a]; [reflexivity|].
  destruct (BAR_ a) as [e|[df ddf]]; [reflexivity|].
  apply IH; [|exact Hs].
  intros s k' Hk'. apply Hargs. now right.
Qed.

Lemma fit_congr (u u' : EnergyTable) (w : world) :
  columns u' = columns u ->
  (forall s k, (k + 1 < length (columns u))%nat ->
     pair_args u' s k = pair_args u s k) ->
  fit BAR_ u' w = fit BAR_ u w.
Proof.
  intros Hc Hargs. rewrite !fit_run. rewrite Hc.
  rewrite (loop_congr u u'); [reflexivity|exact Hc| |reflexivity].
  intros s k Hk. apply in_seq in Hk. apply Hargs. lia.
Qed.

Lemma pair_args_groups (u u' : EnergyTable) (s : BAR) (k : nat) :
  columns u' = columns u ->
  get_group (nth k (columns u) 0%Z) (groupby (sort_index u'))
  = get_group (nth k (columns u) 0%Z) (groupby (sort_index u)) ->
  get_group (nth (k + 1) (columns u) 0%Z) (groupby (sort_index u'))
  = get_group (nth (k + 1) (columns u) 0%Z) (groupby (sort_index u)) ->
  pair_args u' s k = pair_args u s k.
Proof.
  intros Hc H0 H1. unfold pair_args. now rewrite Hc, H0, H1.
Qed.

Lemma known_origin_of_column (u : EnergyTable) (l : label) (r : sample) :
  In l (columns u) -> is_origin l r = true -> known_origin u r = true.
Proof.
  intros Hin Ho. unfold known_origin. apply existsb_exists.
  exists l. split; [exact Hin|exact Ho].
Qed.

Lemma get_group_known_rows (u : EnergyTable) (l : label) :
  In l (columns u) ->
  get_group l (groupby (sort_index (known_rows u)))
  = get_group l (groupby (sort_index u)).
Proof.
  intros Hin. rewrite !get_group_filter.
  cbn [rows sort_index known_rows].
  rewrite sort_rows_filter.
  rewrite filter_filter_implied; [reflexivity|].
  intros r. now apply known_origin_of_column.
Qed.

(** [fit] never looks at the rows whose origin state is not a column
    label: with or without them, the outcome, the solver calls and the
    estimator are the same. *)
Theorem fit_ignores_rows_of_other_states (u : EnergyTable) (w : world) :
  fit BAR_ (known_rows u) w = fit BAR_ u w.
Proof.
  apply fit_congr; [reflexivity|].
  intros s k Hk.
  apply pair_args_groups; [reflexivity| |];
    apply get_group_known_rows, nth_In; lia.
Qed.

(** When the index entries (origin state, time) of the rows are pairwise
    different, [fit] does not depend on the order in which the rows of the
    table are given. *)
Theorem fit_row_order_irrelevant (u u' : EnergyTable) (w : world) :
  columns u' = columns u ->
  Permutation (rows u) (rows u') ->
  NoDup (map index_key (rows u)) ->
  fit BAR_ u' w = fit BAR_ u w.
Proof.
  intros Hc Hp Hnd.
  assert (Hs : sort_index u' = sort_index u).
  { unfold sort_index. rewrite Hc. f_equal. symmetry.
    now apply sort_rows_order_irrelevant. }
  apply fit_congr; [exact Hc|].
  intros s k _. unfold pair_args. now rewrite Hs, Hc.
Qed.




End SameRun.

(** ** Concrete runs for the further properties *)

Lemma fit_frames_shape_and_labels_witness :
  exists D dD,
    states_ (self (snd (fit solver_sum u_three fresh_world))) = Some [0; 1; 2]%Z /\
    delta_f_ (self (snd (fit solver_sum u_three fresh_world))) = Some D /\
    d_delta_f_ (self (snd (fit solver_sum u_three fresh_world))) = Some dD /\
    df_index D = [0; 1; 2]%Z /\ df_columns dD = [0; 1; 2]%Z /\
    Np.shape (values D) 3 3 /\ Np.shape (values dD) 3 3.
Proof.
  destruct (fit_frames_shape_and_labels solver_sum u_three fresh_world _ eq_refl)
    as (D & dD & Hs & HD & HdD & _ & Hi & Hc & _ & HsD & HsdD).
  exists D, dD. repeat (split; [assumption|]). assumption.
Defined.

Lemma fit_no_columns_raises_witness :
  exists msg w',
    fit solver_sum u_no_columns fresh_world = (inl (ValueError msg), w') /\
    states_ (self w') = Some [] /\
    delta_f_ (self w') = None /\ d_delta_f_ (self w') = None /\
    solver_calls w' = [].
Proof.
  exact (fit_no_columns_raises solver_sum u_no_columns fresh_world eq_refl).
Defined.


Lemma fit_calls_carry_options_witness :
  exists c,
    nth_error (new_calls fresh_world (snd (fit solver_sum u_three fresh_world))) 1
    = Some c /\
    kw_maximum_iterations c = 10000%Z /\
    kw_relative_tolerance c = 1 / 10000000 /\
    kw_verbose c = false.
Proof.
  eexists. split; [reflexivity|].
  apply (fit_calls_carry_options solver_sum u_three fresh_world).
  cbn. right. left. reflexivity.
Defined.



(** No sample of the last state: the second pair fails at its lookup, after
    one solver call. *)
Lemma fit_stops_at_first_failure_witness :
  length (new_calls fresh_world (snd (fit solver_sum u_gap fresh_world))) = 1%nat.
Proof.
  apply (fit_stops_at_first_failure solver_sum u_gap fresh_world 1 (KeyError 2%Z)).
  - cbn. lia.
  - intros k' Hk'. assert (k' = 0%nat) as -> by lia. eexists. reflexivity.
  - reflexivity.
Defined.

(** A used estimator with another [method] against a fresh one. *)
Lemma fit_independent_of_earlier_results_witness :
  fst (fit solver_sum u_three
           (reconfigure_world None "bisection"
              (snd (fit solver_sum u_gap fresh_world))))
  = fst (fit solver_sum u_three fresh_world).
Proof.
  apply (fit_independent_of_earlier_results solver_sum u_three
           (reconfigure_world None "bisection"
              (snd (fit solver_sum u_gap fresh_world)))
           fresh_world).
  repeat split.
Defined.

Lemma fit_again_same_estimator_witness :
  exists w'',
    fit solver_sum u_three (snd (fit solver_sum u_three fresh_world))
    = (inr tt, w'') /\
    self w'' = self (snd (fit solver_sum u_three fresh_world)).
Proof.
  destruct (fit_again_same_estimator solver_sum u_three fresh_world _ eq_refl)
    as (w'' & Hfit & Hself & _).
  exists w''. split; assumption.
Defined.

Lemma fit_row_order_irrelevant_witness :
  fit solver_sum u_three_reordered fresh_world
  = fit solver_sum u_three fresh_world.
Proof.
  apply fit_row_order_irrelevant.
  - reflexivity.
  - cbn [rows u_three u_three_reordered].
    apply (Permutation_cons_app [_; _] [_]). cbn [app].
    apply (Permutation_cons_app [_; _] []). cbn [app].
    apply perm_swap.
  - cbn [map rows u_three index_key origin time].
    unfold index_key. cbn [origin time].
    repeat (apply NoDup_cons; [cbn; intuition congruence|]). apply NoDup_nil.
Defined.

